(** * bigO.c: the Big(O) demonstration program

    A shallow embedding of [src/bigO.c] and the properties its
    specification states about it.

    Conventions of the embedding.
    - C [long] and [int] values are integers of [Z].  The program does no
      arithmetic on array elements except summing them, and its index
      arithmetic stays far from the 64-bit limits; where a 32-bit [int]
      receives a [long] the conversion [to_int] is written out.
    - An [int *] is the memory it designates, a function from the index to
      the cell's content.  The cells outside [0, sz) stand for whatever
      lies next to the allocation: the program has no business reading
      them, and the theorems quantify over their content.
    - Loops whose trip count is not evident from their header are run by
      [while] with a bound on the number of iterations; [None] means the
      bound was reached.  Every theorem about such a loop proves that a
      sufficient bound exists.
    - [RESULT(x)] either prints or discards [x]; a routine's model returns
      the value it hands to [RESULT].  The report is that of the default
      build, without [DUMP_RESULT], where [RESULT] prints nothing.
    - [int] counters are incremented without wrap-around: signed overflow
      is undefined in C, and an array of the program has fewer than 2^31
      elements wherever a theorem depends on it. *)

From Stdlib Require Import ZArith List Bool Lia String Ascii DecimalString.
From Stdlib Require Import Permutation Sorted.
From Equations Require Import Equations.
Import ListNotations.
Open Scope Z_scope.

(** ** Data model *)

(** [enum OClass] *)
Inductive OClass :=
| O1 | O_logn | O_sqrtn | O_n | O_nlogn
| O_n_power_2 | O_2_power_n | O_n_permut | O_n_power_n.

(** [struct array { long sz; int *vals; }] *)
Record array := { sz : Z; vals : Z -> Z }.

(** [struct search { int needle; struct array *haystack; }] *)
Record search := { needle : Z; haystack : array }.

(** [struct range_sum { long *slice_sum; long root_sz; long from; long to;
    struct array *array; }] *)
Record range_sum := {
  slice_sum : Z -> Z;
  root_sz : Z;
  from : Z;
  to : Z;
  rs_array : array
}.

(** Conversion of a [long] to a 32-bit [int]. *)
Definition to_int (z : Z) : Z := (z + 2 ^ 31) mod 2 ^ 32 - 2 ^ 31.

(** An array holding the elements of a list, with [junk] around it. *)
Definition of_list (junk : Z -> Z) (l : list Z) : array :=
  {| sz := Z.of_nat (List.length l);
     vals := fun i =>
       if (0 <=? i) && (i <? Z.of_nat (List.length l))
       then nth (Z.to_nat i) l 0 else junk i |}.

(** The [n] cells of [m] from index [lo] on. *)
Definition segment (m : Z -> Z) (lo : Z) (n : nat) : list Z :=
  map (fun k => m (lo + Z.of_nat k)) (seq 0 n).

Definition to_list (a : array) : list Z :=
  segment (vals a) 0 (Z.to_nat (sz a)).

(** [m] with cell [i] set to [v]. *)
Definition upd (m : Z -> Z) (i v : Z) : Z -> Z :=
  fun k => if k =? i then v else m k.

(** An [int *] under observation: its cells, and the indices that were
    read or written so far, the most recent first. *)
Record memory := { cell : Z -> Z; accessed : list Z }.

Definition load (i : Z) (m : memory) : Z * memory :=
  (cell m i, {| cell := cell m; accessed := i :: accessed m |}).

Definition store (i v : Z) (m : memory) : memory :=
  {| cell := upd (cell m) i v; accessed := i :: accessed m |}.

Definition newline : string := String (ascii_of_nat 10) EmptyString.

(** ** Loops *)

Section Loops.
Context {S : Type}.

(** [while (cond) body], at most [fuel] evaluations of [cond].  The
    condition may read memory, so it returns the state along with its
    value. *)
Fixpoint while (fuel : nat) (cond : S -> bool * S) (body : S -> option S)
         (s : S) : option S :=
  match fuel with
  | O => None
  | Datatypes.S fuel' =>
      let (b, s1) := cond s in
      if b then
        match body s1 with
        | Some s2 => while fuel' cond body s2
        | None => None
        end
      else Some s1
  end.

(** [for (i = lo; i < lo + n; i++) body], a loop that runs [n] times. *)
Fixpoint for_loop (n : nat) (i : Z) (body : Z -> S -> S) (s : S) : S :=
  match n with
  | O => s
  | Datatypes.S n' => for_loop n' (i + 1) body (body i s)
  end.
End Loops.

(** ** O(n^2): maximum sum of a run of consecutive elements *)

(** [max_sum] and [curr_sum] are C doubles.  They only ever hold sums of
    [int]s, which a double represents exactly below 2^53; the counters
    [i] and [j] are [int]s.  The model is the source's for arrays of fewer
    than 2^31 elements whose runs have sums below 2^53 in absolute
    value. *)
Definition find_max_seq_sum (a : array) : Z :=
  for_loop (Z.to_nat (sz a)) 0
    (fun i max_sum =>
       snd (for_loop (Z.to_nat (sz a - i)) i
              (fun j '(curr_sum, max_sum) =>
                 let curr_sum := curr_sum + vals a j in
                 (curr_sum, if max_sum <? curr_sum then curr_sum else max_sum))
              (0, max_sum)))
    0.

(** ** O(2^n): Tower of Hanoi *)

(** The notification [RESULT("move remaining one from_peg -> to_peg")],
    tagged with the pegs of the call that emits it. *)
Inductive notification := Move (from_peg to_peg : Z).

Equations? solve_hanoi_1 (num from_peg to_peg spare_peg : Z)
  : list notification by wf (Z.to_nat num) lt :=
  solve_hanoi_1 num from_peg to_peg spare_peg with Z_lt_dec num 1 => {
    | left _ := [];
    | right _ :=
        (match Z_lt_dec 1 num with
         | left _ => solve_hanoi_1 (num - 1) from_peg spare_peg to_peg
         | right _ => []
         end)
        ++ [Move from_peg to_peg]
        ++ (match Z_lt_dec 1 num with
            | left _ => solve_hanoi_1 (num - 1) spare_peg to_peg from_peg
            | right _ => []
            end) }.
Proof. all: lia. Qed.

Definition solve_hanoi (num : Z) : list notification :=
  solve_hanoi_1 num 1 2 3.

(** ** O(1): the first element *)

Definition get_first (a : array) : Z :=
  if 0 <? sz a then vals a 0 else -1.

(** ** O(log n): binary search by jumps *)

(** Returns the message handed to [RESULT] and the indices of
    [haystack->vals] that were read. *)
Definition binary_jump_search (fuel : nat) (s : search)
  : option (string * list Z) :=
  let n := sz (haystack s) in
  match
    while fuel
      (fun '(jump, pos, m) => (0 <? jump, (jump, pos, m)))
      (fun '(jump, pos, m) =>
         match
           while fuel
             (fun '(pos, m) =>
                if pos + jump <? n then
                  let (v, m) := load (pos + jump) m in
                  (v <=? needle s, (pos, m))
                else (false, (pos, m)))
             (fun '(pos, m) => Some (pos + jump, m))
             (pos, m)
         with
         | Some (pos, m) => Some (jump ÷ 2, pos, m)
         | None => None
         end)
      (n ÷ 2, 0, {| cell := vals (haystack s); accessed := [] |})
  with
  | Some (_, pos, m) =>
      let (v, m) := load pos m in
      Some (if v =? needle s then "Found needle!"%string
            else "Needle not found!"%string,
            accessed m)
  | None => None
  end.

(** ** O(sqrt n): range sums from block sums *)

(** [root_sz = 0] makes the C program divide by zero; [Z.rem] and [÷]
    are total, and the theorems keep [root_sz] positive.  The index [i]
    is an [int]: [i + 1] and [i++] are the source's as long as they stay
    below 2^31, which the theorems assume of the bounds. *)
Definition range_sum_query (fuel : nat) (rs : range_sum) : option Z :=
  let a := vals (rs_array rs) in
  match
    while fuel
      (fun '(sum, i) =>
         (negb (Z.rem (i + 1) (root_sz rs) =? 0) && (i <=? to rs), (sum, i)))
      (fun '(sum, i) => Some (sum + a i, i + 1))
      (0, to_int (from rs))
  with
  | None => None
  | Some st =>
  match
    while fuel
      (fun '(sum, i) => (i + root_sz rs <=? to rs, (sum, i)))
      (fun '(sum, i) =>
         Some (sum + slice_sum rs (i ÷ root_sz rs), to_int (i + root_sz rs)))
      st
  with
  | None => None
  | Some st =>
  match
    while fuel
      (fun '(sum, i) => (i <=? to rs, (sum, i)))
      (fun '(sum, i) => Some (sum + a i, i + 1))
      st
  with
  | None => None
  | Some (sum, _) => Some sum
  end end end.

(** [(long)sqrt(sz)] is the integer square root: the double square root
    of an integer below 2^52 rounds to it.  [junk] is the content of the
    block that [malloc] returns for [slice_sum]. *)
Definition setup_slice_sums (junk : Z -> Z) (rs : range_sum) : range_sum :=
  let a := rs_array rs in
  let root := Z.sqrt (sz a) in
  let max_slice := to_int (sz a ÷ root) in
  let num_slices := max_slice + 1 in
  let zeroed :=
    for_loop (Z.to_nat num_slices) 0 (fun i m => upd m i 0) junk in
  let sums :=
    for_loop (Z.to_nat (sz a)) 0
      (fun i m => upd m (i ÷ root) (m (i ÷ root) + vals a i)) zeroed in
  {| slice_sum := sums; root_sz := root;
     from := from rs; to := to rs; rs_array := a |}.

(** ** O(n): linear search *)

(** The counter [i] is an [int]: the model is the source's for haystacks
    of fewer than 2^31 elements, which the theorems assume. *)

Fixpoint linear_search_from (n : nat) (i : Z) (s : search) : string :=
  match n with
  | O => "Needle Not Found!"
  | S n' =>
      if vals (haystack s) i =? needle s then "Found needle!"
      else linear_search_from n' (i + 1) s
  end.

Definition linear_search (s : search) : string :=
  linear_search_from (Z.to_nat (sz (haystack s))) 0 s.

(** ** O(n log n): quicksort *)

(** The cursors [left] and [right] of the source are [lft] and [rgt]. *)
Definition partition_1 (fuel : nat) (low high : Z) (m : memory)
  : option (Z * memory) :=
  let (pivot, m) := load low m in
  match
    while fuel
      (fun '(lft, rgt, m) => (lft <? rgt, (lft, rgt, m)))
      (fun '(lft, rgt, m) =>
         match
           while fuel
             (fun '(lft, m) =>
                let (v, m) := load lft m in
                ((v <=? pivot) && (lft <=? high), (lft, m)))
             (fun '(lft, m) => Some (lft + 1, m))
             (lft, m)
         with
         | None => None
         | Some (lft, m) =>
         match
           while fuel
             (fun '(rgt, m) =>
                let (v, m) := load rgt m in (pivot <? v, (rgt, m)))
             (fun '(rgt, m) => Some (rgt - 1, m))
             (rgt, m)
         with
         | None => None
         | Some (rgt, m) =>
             if lft <? rgt then
               let (tmp, m) := load lft m in
               let (v, m) := load rgt m in
               let m := store lft v m in
               let m := store rgt tmp m in
               Some (lft, rgt, m)
             else Some (lft, rgt, m)
         end end)
      (low, high, m)
  with
  | None => None
  | Some (_, rgt, m) =>
      let (v, m) := load rgt m in
      let m := store low v m in
      let m := store rgt pivot m in
      Some (rgt, m)
  end.

(** [fuel] bounds the depth of the recursion as well as the loops of
    [partition_1]. *)
Fixpoint quick_sort_1 (fuel : nat) (low high : Z) (m : memory)
  : option memory :=
  match fuel with
  | O => None
  | S fuel' =>
      if low <? high then
        match partition_1 fuel low high m with
        | None => None
        | Some (pivot, m) =>
            match quick_sort_1 fuel' low (pivot - 1) m with
            | None => None
            | Some m => quick_sort_1 fuel' (pivot + 1) high m
            end
        end
      else Some m
  end.

(** The array after the sort, and the indices of [array->vals] that the
    sort accessed. *)
Definition quick_sort (fuel : nat) (a : array) : option (array * list Z) :=
  match
    quick_sort_1 fuel 0 (sz a - 1) {| cell := vals a; accessed := [] |}
  with
  | Some m => Some ({| sz := sz a; vals := cell m |}, accessed m)
  | None => None
  end.

(** ** The environments and the report *)

(** [void *data]: a pointer to an array, a search or a range sum, the
    number of disks cast to a pointer, or [NULL]. *)
Inductive void_ptr :=
| DArray (a : array)
| DSearch (s : search)
| DRangeSum (rs : range_sum)
| DLong (z : Z)
| DNull.

(** [!data] *)
Definition is_null (d : void_ptr) : bool :=
  match d with
  | DNull => true
  | DLong z => z =? 0
  | _ => false
  end.

(** [func]: the routines an environment can point to. *)
Inductive func :=
| Fget_first | Fbinary_jump_search | Frange_sum_query | Flinear_search
| Fquick_sort | Ffind_max_seq_sum | Fsolve_hanoi | Fdo_nothing.

(** [struct environment]; [algo = None] is the null pointer of the end
    marker. *)
Record environment := {
  n : Z;
  algo : option func;
  data : void_ptr;
  oclass : OClass
}.

(** What a routine handed to [RESULT], or left in memory. *)
Inductive outcome :=
| Value (z : Z)
| Message (s : string)
| SortedArray (a : array)
| Moves (l : list notification)
| Nothing.

(** [environment->algo(environment->data)].  A routine called on data of
    another shape than its own has no defined behaviour.  [solve_hanoi]
    takes an [int]. *)
Definition call (fuel : nat) (f : func) (d : void_ptr) : option outcome :=
  match f, d with
  | Fget_first, DArray a => Some (Value (get_first a))
  | Fbinary_jump_search, DSearch s =>
      match binary_jump_search fuel s with
      | Some (msg, _) => Some (Message msg)
      | None => None
      end
  | Frange_sum_query, DRangeSum rs =>
      match range_sum_query fuel rs with
      | Some sum => Some (Value sum)
      | None => None
      end
  | Flinear_search, DSearch s => Some (Message (linear_search s))
  | Fquick_sort, DArray a =>
      match quick_sort fuel a with
      | Some (a', _) => Some (SortedArray a')
      | None => None
      end
  | Ffind_max_seq_sum, DArray a => Some (Value (find_max_seq_sum a))
  | Fsolve_hanoi, DLong z => Some (Moves (solve_hanoi (to_int z)))
  | Fdo_nothing, _ => Some Nothing
  | _, _ => None
  end.

Definition oclass_1_str (oclass : OClass) : string :=
  match oclass with
  | O1 => "O(1)"
  | O_logn => "O(log(n))"
  | O_sqrtn => "O(sqrt(n))"
  | O_n => "O(n)"
  | O_nlogn => "O(n log(n))"
  | O_n_power_2 => "O(n^2)"
  | O_2_power_n => "O(2^n)"
  | O_n_permut => "O(n!)"
  | O_n_power_n => "O(n^n)"
  end.

(** [%ld] *)
Definition decimal (z : Z) : string := NilZero.string_of_int (Z.to_int z).

(** [%-12s] *)
Definition pad12 (s : string) : string :=
  s ++ string_of_list_ascii (repeat " "%char (12 - String.length s)).

(** What the run has done so far: the text printed, the number of calls
    to [clock()], and the routines executed with what they produced, the
    most recent first. *)
Record world := {
  stdout : string;
  clocks : nat;
  executed : list (OClass * outcome)
}.

Definition world0 : world :=
  {| stdout := EmptyString; clocks := 0; executed := [] |}.

Definition printf (text : string) (w : world) : world :=
  {| stdout := stdout w ++ text; clocks := clocks w;
     executed := executed w |}.

(** The text before the time: ["%-12s(%ld items): "]. *)
Definition heading (e : environment) : string :=
  pad12 (oclass_1_str (oclass e)) ++ "(" ++ decimal (n e) ++ " items): ".

(** ["%lf"] of a whole number of clock ticks, which the conversion to
    double keeps as it is below 2^53 ticks. *)
Definition show_time_msg_1 (begin end_ : Z) : string :=
  decimal (end_ - begin) ++ ".000000".

Section Run.
(** [atol] of the C library, the successive values of [rand()] and of
    [clock()], the content of the blocks that [malloc] returns, and the
    bound on the loops. *)
Variable atol : string -> Z.
Variable rand : nat -> Z.
Variable clock : nat -> Z.
Variable junk : nat -> Z -> Z.
Variable fuel : nat.

Definition show_time_taken (e : environment) (w : world) : option world :=
  if is_null (data e) then
    Some (printf (heading e ++ "(Not executed)" ++ newline) w)
  else
    let w := printf (heading e) w in
    let begin := clock (clocks w) in
    match algo e with
    | None => None
    | Some f =>
        match call fuel f (data e) with
        | None => None
        | Some r =>
            let end_ := clock (S (clocks w)) in
            Some (printf (show_time_msg_1 begin end_ ++ newline)
                    {| stdout := stdout w; clocks := S (S (clocks w));
                       executed := (oclass e, r) :: executed w |})
        end
    end.

(** The walk over the array of environments up to the end marker;
    walking off the array is [None]. *)
Fixpoint show_algo_results (environments : list environment) (w : world)
  : option world :=
  match environments with
  | [] => None
  | e :: rest =>
      match algo e with
      | None => Some w
      | Some _ =>
          match show_time_taken e w with
          | Some w => show_algo_results rest w
          | None => None
          end
      end
  end.

(** [create_int_array]: the block and the number of values of [rand()]
    used so far. *)
Definition create_int_array (block : Z -> Z) (k : nat) (sz : Z)
  : (Z -> Z) * nat :=
  for_loop (Z.to_nat sz) 0
    (fun i '(m, k) => (upd m i (rand k), S k)) (block, k).

(** The fields of the end marker other than [algo] are never set.
    With [sz <= 0] the draw of the needle, [vals[rand() % sz]], has no
    defined behaviour: it divides by zero for [sz = 0], and for [sz < 0]
    it reads a block that [malloc] did not give (a null pointer for the
    sizes down to -2^61) or that holds no cell: [None]. *)
Definition create_environments (sz : Z) : option (list environment) :=
  let (block, k) := create_int_array (junk 0) 0 sz in
  match quick_sort fuel {| sz := sz; vals := block |} with
  | None => None
  | Some (sorted_array, _) =>
  let (block, k) := create_int_array (junk 1) k sz in
  let array := {| sz := sz; vals := block |} in
  let (block, k) := create_int_array (junk 2) k sz in
  let mutable_array := {| sz := sz; vals := block |} in
  if sz <=? 0 then None else
  let search :=
    {| haystack := sorted_array;
       needle := vals sorted_array (Z.rem (rand k) sz) |} in
  let rs :=
    setup_slice_sums (junk 3)
      {| slice_sum := junk 3; root_sz := 0; from := 0; to := 0;
         rs_array := array |} in
  match
    while fuel
      (fun '(from, to, k) => (from <? to, (from, to, k)))
      (fun '(_, _, k) =>
         Some (Z.rem (rand k) sz, Z.rem (rand (S k)) sz, S (S k)))
      (Z.rem (rand (S k)) sz, Z.rem (rand (S (S k))) sz, S (S (S k)))
  with
  | None => None
  | Some (from, to, _) =>
  let rs :=
    {| slice_sum := slice_sum rs; root_sz := root_sz rs;
       from := from; to := to; rs_array := rs_array rs |} in
  Some
    [ {| n := sz; algo := Some Fget_first;
         data := DArray array; oclass := O1 |};
      {| n := sz; algo := Some Fbinary_jump_search;
         data := DSearch search; oclass := O_logn |};
      {| n := sz; algo := Some Frange_sum_query;
         data := DRangeSum rs; oclass := O_sqrtn |};
      {| n := sz; algo := Some Flinear_search;
         data := DSearch search; oclass := O_n |};
      {| n := sz; algo := Some Fquick_sort;
         data := DArray mutable_array; oclass := O_nlogn |};
      {| n := sz; algo := Some Ffind_max_seq_sum;
         data := DArray array; oclass := O_n_power_2 |};
      {| n := sz; algo := Some Fsolve_hanoi;
         data := DLong sz; oclass := O_2_power_n |};
      {| n := sz; algo := Some Fdo_nothing;
         data := DNull; oclass := O_n_permut |};
      {| n := sz; algo := Some Fdo_nothing;
         data := DNull; oclass := O_n_power_n |};
      {| n := 0; algo := None; data := DNull; oclass := O1 |} ]
  end end.


End Run.

(** ** Vocabulary of the properties *)

(** The haystack is in ascending order. *)
Definition ascending (a : array) : Prop :=
  forall i j, 0 <= i <= j -> j < sz a -> vals a i <= vals a j.

(** The needle is an element of the haystack. *)
Definition present (s : search) : Prop :=
  exists k, 0 <= k < sz (haystack s) /\ vals (haystack s) k = needle s.

(** The sum of the elements at the indices [from] to [to], added one by
    one. *)
Definition direct_sum (a : array) (from to : Z) : Z :=
  fold_right Z.add 0 (segment (vals a) from (Z.to_nat (to - from + 1))).

(** The bounds of the range-sum query among the environments. *)
Fixpoint query_bounds (environments : list environment) : option (Z * Z) :=
  match environments with
  | [] => None
  | e :: rest =>
      match data e with
      | DRangeSum rs => Some (from rs, to rs)
      | _ => query_bounds rest
      end
  end.

(** The cells from [low] to [high] are in ascending order. *)
Definition ascending_between (c : Z -> Z) (low high : Z) : Prop :=
  forall i j, low <= i <= j -> j <= high -> c i <= c j.











(** The run from [m] to [m'] accessed only indices that satisfy [R]. *)
Definition grown (R : Z -> Prop) (m m' : memory) : Prop :=
  exists extra, accessed m' = extra ++ accessed m /\ Forall R extra.

(** The puzzle that the notifications are about: each peg holds a stack
    of disks, the top first, a disk being its size. *)
Definition pegs := Z -> list Z.

(** The disks 1 to [num], the smallest on top. *)
Definition tower (num : Z) : list Z := map Z.of_nat (seq 1 (Z.to_nat num)).

(** Carrying out one notification: the top disk of the source peg goes on
    top of the target peg, which must be empty or have a larger disk on
    top. *)
Definition move_disk (mv : notification) (st : pegs) : option pegs :=
  let '(Move x y) := mv in
  match st x with
  | [] => None
  | d :: rest =>
      if match st y with [] => true | e :: _ => d <? e end
      then Some (fun p => if p =? y then d :: st y
                          else if p =? x then rest else st p)
      else None
  end.

Fixpoint play (moves : list notification) (st : pegs) : option pegs :=
  match moves with
  | [] => Some st
  | mv :: rest =>
      match move_disk mv st with
      | Some st' => play rest st'
      | None => None
      end
  end.

(** * Properties *)

(** ** Loop rules *)

Section LoopRules.
Context {S : Type}.

(** Total correctness of [while]: an invariant [I], a variant [v] that
    every iteration decreases, and a post-condition [Q] that holds when
    the condition fails. *)
Lemma while_rule (I Q : S -> Prop) (v : S -> nat)
      (cond : S -> bool * S) (body : S -> option S) :
  (forall s, I s ->
     (fst (cond s) = true ->
      exists s', body (snd (cond s)) = Some s' /\ I s' /\ (v s' < v s)%nat)
     /\ (fst (cond s) = false -> Q (snd (cond s)))) ->
  forall fuel s, I s -> (v s < fuel)%nat ->
  exists s', while fuel cond body s = Some s' /\ Q s'.
Proof.
  intros step fuel.
  induction fuel as [|fuel IH]; intros s Hs Hv; [lia|].
  destruct (step s Hs) as [Htrue Hfalse].
  simpl. destruct (cond s) as [b s1]; simpl in *.
  destruct b.
  - destruct (Htrue eq_refl) as (s2 & -> & Hs2 & Hlt).
    apply IH; [assumption | lia].
  - exists s1. auto.
Qed.

(** A loop that ends, ends on a state where its condition fails. *)
Lemma while_exit (cond : S -> bool * S) (body : S -> option S) :
  forall fuel s s',
  while fuel cond body s = Some s' ->
  exists s0, cond s0 = (false, s').
Proof.
  induction fuel as [|fuel IH]; intros s s'; simpl; [discriminate|].
  destruct (cond s) as [[] s1] eqn:Hcond.
  - destruct (body s1) as [s2|]; [apply IH | discriminate].
  - intros [= <-]. now exists s.
Qed.

(** Loops that test their condition once or twice. *)
Lemma while_false (cond : S -> bool * S) (body : S -> option S)
      fuel s s' :
  cond s = (false, s') -> while (Datatypes.S fuel) cond body s = Some s'.
Proof. intros H. cbn [while]. now rewrite H. Qed.

Lemma while_once (cond : S -> bool * S) (body : S -> option S)
      fuel s s1 s2 s3 :
  cond s = (true, s1) -> body s1 = Some s2 -> cond s2 = (false, s3) ->
  while (Datatypes.S (Datatypes.S fuel)) cond body s = Some s3.
Proof. intros H1 H2 H3. cbn [while]. now rewrite H1, H2, H3. Qed.

(** Invariant rule of the counting loop. *)
Lemma for_loop_rule (P : Z -> S -> Prop) (body : Z -> S -> S) :
  forall cnt lo s,
  (forall i s, lo <= i < lo + Z.of_nat cnt -> P i s -> P (i + 1) (body i s)) ->
  P lo s ->
  P (lo + Z.of_nat cnt) (for_loop cnt lo body s).
Proof.
  intros cnt.
  induction cnt as [|cnt IH]; intros lo s step H0; simpl for_loop.
  - now replace (lo + Z.of_nat 0) with lo by lia.
  - replace (lo + Z.of_nat (Datatypes.S cnt)) with (lo + 1 + Z.of_nat cnt)
      by lia.
    apply IH.
    + intros i s' Hi. apply step. lia.
    + apply step; [lia | assumption].
Qed.
End LoopRules.

(** ** Tower of Hanoi *)

Lemma solve_hanoi_1_step num from_peg to_peg spare_peg :
  1 <= num ->
  solve_hanoi_1 num from_peg to_peg spare_peg =
  (if 1 <? num then solve_hanoi_1 (num - 1) from_peg spare_peg to_peg else [])
  ++ [Move from_peg to_peg]
  ++ (if 1 <? num then solve_hanoi_1 (num - 1) spare_peg to_peg from_peg
      else []).
Proof.
  intros Hnum. rewrite solve_hanoi_1_equation_1.
  destruct (Z_lt_dec num 1) as [?|?]; [lia|]. simpl.
  destruct (Z_lt_dec 1 num), (Z.ltb_spec 1 num); solve [reflexivity | lia].
Qed.

Lemma solve_hanoi_1_base num from_peg to_peg spare_peg :
  num < 1 -> solve_hanoi_1 num from_peg to_peg spare_peg = [].
Proof.
  intros Hnum. rewrite solve_hanoi_1_equation_1.
  destruct (Z_lt_dec num 1); [reflexivity | lia].
Qed.

Lemma solve_hanoi_1_length num :
  0 <= num ->
  forall from_peg to_peg spare_peg,
  Z.of_nat (List.length (solve_hanoi_1 num from_peg to_peg spare_peg))
  = 2 ^ num - 1.
Proof.
  intros Hnum. pattern num. apply natlike_ind; [| |exact Hnum]; clear.
  - intros. now rewrite solve_hanoi_1_base by lia.
  - intros num Hnum IH from_peg to_peg spare_peg.
    rewrite solve_hanoi_1_step by lia.
    replace (Z.succ num - 1) with num by lia.
    rewrite Z.pow_succ_r by assumption.
    destruct (Z.ltb_spec 1 (Z.succ num)).
    + rewrite !length_app, !Nat2Z.inj_add, !IH. simpl List.length. lia.
    + assert (num = 0) as -> by lia. reflexivity.
  Qed.

(** C7.  For every number of disks [num >= 0], [solve_hanoi] emits
    [2^num - 1] move notifications: none for [num = 0], one for
    [num = 1]; and for [num >= 1] every call emits its own move exactly
    once, between two recursive calls that are made only when [num > 1]. *)
Theorem solve_hanoi_move_count (num : Z) :
  0 <= num ->
  Z.of_nat (List.length (solve_hanoi num)) = 2 ^ num - 1
  /\ solve_hanoi 0 = []
  /\ solve_hanoi 1 = [Move 1 2]
  /\ (1 <= num ->
      forall from_peg to_peg spare_peg,
      solve_hanoi_1 num from_peg to_peg spare_peg =
      (if 1 <? num then solve_hanoi_1 (num - 1) from_peg spare_peg to_peg
       else [])
      ++ [Move from_peg to_peg]
      ++ (if 1 <? num then solve_hanoi_1 (num - 1) spare_peg to_peg from_peg
          else [])).
Proof.
  intros Hnum. repeat split.
  - now apply solve_hanoi_1_length.
  - intros. now apply solve_hanoi_1_step.
Qed.

Lemma solve_hanoi_move_count_witness :
  Z.of_nat (List.length (solve_hanoi 10)) = 2 ^ 10 - 1.
Proof.
  apply (solve_hanoi_move_count 10). lia.
Defined.

(** ** Maximum sum of a run *)

Lemma find_max_seq_sum_nonneg (a : array) : 0 <= find_max_seq_sum a.
Proof.
  unfold find_max_seq_sum.
  pose (P := fun (_ : Z) (max_sum : Z) => 0 <= max_sum).
  apply (for_loop_rule P); [|unfold P; lia].
  intros i max_sum _ Hmax. unfold P in *.
  pose (Q := fun (_ : Z) (st : Z * Z) => 0 <= snd st).
  apply (for_loop_rule Q); [|unfold Q; simpl; lia].
  intros j [curr_sum m] _. unfold Q. simpl.
  destruct (Z.ltb_spec m (curr_sum + vals a j)); lia.
Qed.

Lemma find_max_seq_sum_inner (a : array) (i max_sum : Z) (cnt : nat) :
  (0 < cnt)%nat ->
  let r := snd (for_loop cnt i
                  (fun j '(curr_sum, max_sum) =>
                     let curr_sum := curr_sum + vals a j in
                     (curr_sum,
                      if max_sum <? curr_sum then curr_sum else max_sum))
                  (0, max_sum)) in
  max_sum <= r /\ vals a i <= r.
Proof.
  intros Hcnt r. subst r.
  pose (Q := fun (j : Z) (st : Z * Z) =>
               max_sum <= snd st
               /\ (j = i -> fst st = 0)
               /\ (i < j -> vals a i <= snd st)).
  match goal with |- context [for_loop cnt i ?b ?s] =>
    assert (H : Q (i + Z.of_nat cnt) (for_loop cnt i b s))
  end.
  { apply (for_loop_rule Q).
    - intros j [curr_sum m] Hj HQ. unfold Q in *. simpl in *.
      destruct HQ as (Hm & Hc & Hi).
      destruct (Z.ltb_spec m (curr_sum + vals a j)).
      + repeat split; try lia. intros _.
        assert (j = i \/ i < j) as [->|Hlt] by lia; [rewrite Hc in *|]; lia.
      + repeat split; try lia. intros _.
        assert (j = i \/ i < j) as [->|Hlt] by lia;
          [rewrite Hc in * by reflexivity|]; lia.
    - unfold Q. simpl. repeat split; lia. }
  destruct H as (H1 & _ & H2). split; [assumption | apply H2; lia].
Qed.

Lemma find_max_seq_sum_ge (a : array) (i : Z) :
  0 <= i < sz a -> vals a i <= find_max_seq_sum a.
Proof.
  intros Hi. unfold find_max_seq_sum.
  pose (P := fun (k : Z) (max_sum : Z) => i < k -> vals a i <= max_sum).
  match goal with |- _ <= for_loop ?c 0 ?b ?s =>
    assert (H : P (0 + Z.of_nat c) (for_loop c 0 b s))
  end.
  { apply (for_loop_rule P); [|unfold P; lia].
    intros k max_sum Hk Hmax. unfold P in *. intros Hlt.
    destruct (find_max_seq_sum_inner a k max_sum (Z.to_nat (sz a - k)))
      as [Hmono Hkth]; [lia|].
    assert (k = i \/ i < k) as [->|Hik] by lia; [assumption|].
    eapply Z.le_trans; [exact (Hmax Hik) | exact Hmono]. }
  apply H. lia.
Qed.

(** C8.  For every array (of fewer than 2^31 elements, the range of the
    counters of the routine), [find_max_seq_sum] returns a value that is
    at least 0 and at least every element of the array, and it returns 7
    on the sequence 1, -2, 3, 4, -1. *)
Theorem find_max_seq_sum_bounds (a : array) :
  sz a < 2 ^ 31 ->
  0 <= find_max_seq_sum a
  /\ (forall i, 0 <= i < sz a -> vals a i <= find_max_seq_sum a)
  /\ (forall junk, find_max_seq_sum (of_list junk [1; -2; 3; 4; -1]) = 7).
Proof.
  intros Hint.
  split; [apply find_max_seq_sum_nonneg|].
  split; [apply find_max_seq_sum_ge|].
  intros junk. reflexivity.
Qed.

Lemma find_max_seq_sum_bounds_witness :
  0 <= find_max_seq_sum (of_list (fun _ => 0) [-3; 5; -1])
  /\ vals (of_list (fun _ => 0) [-3; 5; -1]) 1
     <= find_max_seq_sum (of_list (fun _ => 0) [-3; 5; -1]).
Proof.
  destruct (find_max_seq_sum_bounds (of_list (fun _ => 0) [-3; 5; -1]))
    as (Hnonneg & Hge & _).
  - simpl. lia.
  - split; [exact Hnonneg | apply Hge; simpl; lia].
Defined.

(** ** Searching *)

Lemma halve (jump : Z) :
  0 < jump -> 0 <= jump ÷ 2 < jump /\ (jump ÷ 2 = 0 -> jump = 1).
Proof.
  intros Hj. rewrite Z.quot_div_nonneg by lia.
  split; [|intros H]; try split; try (apply Z.div_lt; lia);
    try (apply Z.div_pos; lia).
  assert (jump < 2) by (apply Z.div_small_iff in H; lia). lia.
Qed.

(** Where the jumps of [binary_jump_search] end in a haystack that is not
    empty: on the last position whose element is at most the needle, or
    on position 0; and every read is inside the haystack. *)
Lemma binary_jump_search_position (fuel : nat) (s : search) :
  let a := haystack s in
  0 < sz a ->
  (Z.to_nat (sz a) < fuel)%nat ->
  exists pos reads,
    binary_jump_search fuel s =
      Some (if vals a pos =? needle s then "Found needle!"%string
            else "Needle not found!"%string, reads)
    /\ 0 <= pos < sz a
    /\ (pos = 0 \/ vals a pos <= needle s)
    /\ (sz a <= pos + 1 \/ needle s < vals a (pos + 1))
    /\ Forall (fun i => 0 <= i < sz a) reads.
Proof.
  intros a Hsz Hfuel. unfold binary_jump_search. fold a.
  set (inside := fun i => 0 <= i < sz a).
  pose (I := fun st : Z * Z * memory =>
    let '(jump, pos, m) := st in
    cell m = vals a /\ 0 <= jump /\ 0 <= pos < sz a
    /\ (pos = 0 \/ vals a pos <= needle s)
    /\ (jump = 0 ->
        sz a <= 1 \/ sz a <= pos + 1 \/ needle s < vals a (pos + 1))
    /\ Forall inside (accessed m)).
  pose (Q := fun st : Z * Z * memory => I st /\ fst (fst st) = 0).
  pose (v := fun st : Z * Z * memory => Z.to_nat (fst (fst st))).
  match goal with |- context [while fuel ?c ?b ?s0] =>
    destruct (while_rule I Q v c b) with (fuel := fuel) (s := s0)
      as ([[jump pos] m] & -> & HI & Hjump)
  end.
  - (* one round of the outer loop *)
    intros [[jump pos] m] (Hm & Hj & Hpos & Hle & Hlast & Hacc). simpl.
    split.
    + intros Hcond. apply Z.ltb_lt in Hcond.
      pose (I' := fun st : Z * memory =>
        let '(pos', m') := st in
        cell m' = vals a /\ 0 <= pos' < sz a
        /\ (pos' = 0 \/ vals a pos' <= needle s)
        /\ Forall inside (accessed m')).
      pose (Q' := fun st : Z * memory =>
        I' st /\ (sz a <= fst st + jump
                  \/ needle s < vals a (fst st + jump))).
      pose (v' := fun st : Z * memory => Z.to_nat (sz a - fst st)).
      match goal with |- context [while fuel ?c ?b ?s0] =>
        destruct (while_rule I' Q' v' c b) with (fuel := fuel) (s := s0)
          as ([pos' m'] & -> & (Hm' & Hpos' & Hle' & Hacc') & Hstop)
      end.
      * intros [p m1] (Hm1 & Hp & Hple & Hacc1). simpl.
        destruct (Z.ltb_spec (p + jump) (sz a)) as [Hin|Hout]; simpl.
        -- rewrite Hm1.
           destruct (Z.leb_spec (vals a (p + jump)) (needle s)); split;
             try discriminate; intros _.
           ++ eexists. split; [reflexivity|].
              unfold v'. simpl. repeat split; try assumption; try lia.
              constructor; [unfold inside; lia | assumption].
           ++ unfold Q'. simpl. repeat split; try assumption; try lia.
              constructor; [unfold inside; lia | assumption].
        -- split; [discriminate|]. intros _. unfold Q'. simpl.
           repeat split; try assumption; lia.
      * unfold I'. auto.
      * unfold v'. simpl. lia.
      * simpl in Hstop. destruct (halve jump Hcond) as [Hhalf Hone].
        exists (jump ÷ 2, pos', m'). unfold v. simpl.
        repeat split; try assumption; try lia.
        intros Hz. specialize (Hone Hz). subst jump. right. exact Hstop.
    + intros Hcond. apply Z.ltb_ge in Hcond. unfold Q. simpl.
      repeat split; try assumption; lia.
  - (* before the loop *)
    unfold I. simpl. repeat split; try lia.
    + rewrite Z.quot_div_nonneg by lia. apply Z.div_pos; lia.
    + intros H. left. rewrite Z.quot_div_nonneg in H by lia.
      apply Z.div_small_iff in H; lia.
    + constructor.
  - (* the bound suffices *)
    unfold v. simpl. rewrite Z.quot_div_nonneg by lia.
    assert (sz a / 2 <= sz a) by (apply Z.div_le_upper_bound; lia). lia.
  - (* after the loop *)
    simpl in Hjump. subst jump.
    destruct HI as (Hm & _ & Hpos & Hle & Hlast & Hacc).
    simpl. rewrite Hm. exists pos, (pos :: accessed m).
    repeat split; try assumption; try lia.
    constructor; [unfold inside; lia | assumption].
Qed.

Lemma linear_search_from_found (s : search) (cnt : nat) :
  forall i,
  (exists k, i <= k < i + Z.of_nat cnt /\ vals (haystack s) k = needle s) ->
  linear_search_from cnt i s = "Found needle!"%string.
Proof.
  induction cnt as [|cnt IH]; intros i (k & Hk & Heq); [lia|].
  simpl. destruct (Z.eqb_spec (vals (haystack s) i) (needle s)) as [|Hne];
    [reflexivity|].
  apply IH. exists k. split; [|assumption].
  assert (k <> i) by (intros ->; contradiction). lia.
Qed.

Lemma linear_search_from_absent (s : search) (cnt : nat) :
  forall i,
  (forall k, i <= k < i + Z.of_nat cnt -> vals (haystack s) k <> needle s) ->
  linear_search_from cnt i s = "Needle Not Found!"%string.
Proof.
  induction cnt as [|cnt IH]; intros i Habs; [reflexivity|].
  simpl. destruct (Z.eqb_spec (vals (haystack s) i) (needle s)) as [Heq|_].
  - exfalso. apply (Habs i); [lia | assumption].
  - apply IH. intros k Hk. apply Habs. lia.
Qed.

Lemma outside_not_present (s : search) :
  ascending (haystack s) ->
  needle s < vals (haystack s) 0
  \/ vals (haystack s) (sz (haystack s) - 1) < needle s ->
  ~ present s.
Proof.
  intros Hasc Hout (k & Hk & Heq).
  pose proof (Hasc 0 k ltac:(lia) ltac:(lia)).
  pose proof (Hasc k (sz (haystack s) - 1) ltac:(lia) ltac:(lia)).
  lia.
Qed.

(** C6.  In a haystack that is not empty (and has fewer than 2^31
    elements, the range of the counter of [linear_search]) and is in
    ascending order, [binary_jump_search] and [linear_search] both report
    that they found a needle that is present, and both report that they
    did not find a needle that is absent, in particular one below the
    first or above the last element. *)
Theorem searches_agree_with_presence (fuel : nat) (s : search) :
  0 < sz (haystack s) ->
  sz (haystack s) < 2 ^ 31 ->
  ascending (haystack s) ->
  (Z.to_nat (sz (haystack s)) < fuel)%nat ->
  (present s ->
   exists reads,
     binary_jump_search fuel s = Some ("Found needle!"%string, reads)
     /\ linear_search s = "Found needle!"%string)
  /\ (~ present s ->
      exists reads,
        binary_jump_search fuel s = Some ("Needle not found!"%string, reads)
        /\ linear_search s = "Needle Not Found!"%string)
  /\ (needle s < vals (haystack s) 0
      \/ vals (haystack s) (sz (haystack s) - 1) < needle s ->
      exists reads,
        binary_jump_search fuel s = Some ("Needle not found!"%string, reads)
        /\ linear_search s = "Needle Not Found!"%string).
Proof.
  intros Hsz Hint Hasc Hfuel.
  destruct (binary_jump_search_position fuel s Hsz Hfuel)
    as (pos & reads & Hrun & Hpos & Hle & Hnext & _).
  assert (Hfound : present s ->
    exists reads,
      binary_jump_search fuel s = Some ("Found needle!"%string, reads)
      /\ linear_search s = "Found needle!"%string).
  { intros (k & Hk & Heq). exists reads. split.
    - rewrite Hrun.
      assert (Hkpos : k <= pos).
      { destruct Hnext as [Hend|Hgt]; [lia|].
        destruct (Z_le_gt_dec k pos); [assumption|].
        pose proof (Hasc (pos + 1) k ltac:(lia) ltac:(lia)). lia. }
      assert (Hval : vals (haystack s) pos = needle s).
      { destruct Hle as [->|Hle].
        - assert (k = 0) as -> by lia. assumption.
        - pose proof (Hasc k pos ltac:(lia) ltac:(lia)). lia. }
      now rewrite Hval, Z.eqb_refl.
    - apply linear_search_from_found. exists k. split; [lia | assumption]. }
  assert (Habsent : ~ present s ->
    exists reads,
      binary_jump_search fuel s = Some ("Needle not found!"%string, reads)
      /\ linear_search s = "Needle Not Found!"%string).
  { intros Habs. exists reads. split.
    - rewrite Hrun.
      destruct (Z.eqb_spec (vals (haystack s) pos) (needle s)) as [Heq|_];
        [|reflexivity].
      exfalso. apply Habs. now exists pos.
    - apply linear_search_from_absent. intros k Hk Heq.
      apply Habs. exists k. split; [lia | assumption]. }
  repeat split; try assumption.
  intros Hout. apply Habsent. now apply outside_not_present.
Qed.

Lemma searches_agree_with_presence_witness :
  (exists reads,
     binary_jump_search 4
       {| needle := 5; haystack := of_list (fun _ => 0) [1; 5; 9] |}
     = Some ("Found needle!"%string, reads))
  /\ (exists reads,
        binary_jump_search 4
          {| needle := 12; haystack := of_list (fun _ => 0) [1; 5; 9] |}
        = Some ("Needle not found!"%string, reads)).
Proof.
  assert (Hasc : ascending (of_list (fun _ => 0) [1; 5; 9])).
  { intros i j Hij Hj. simpl in Hj.
    assert (Hi : i = 0 \/ i = 1 \/ i = 2) by lia.
    assert (Hj' : j = 0 \/ j = 1 \/ j = 2) by lia.
    destruct Hi as [Hi|[Hi|Hi]]; destruct Hj' as [Hj'|[Hj'|Hj']]; subst i j;
      vm_compute; try discriminate; lia. }
  split.
  - destruct (searches_agree_with_presence 4
                {| needle := 5; haystack := of_list (fun _ => 0) [1; 5; 9] |})
      as (Hfound & _ & _).
    + simpl. lia.
    + simpl. lia.
    + exact Hasc.
    + vm_compute. lia.
    + destruct Hfound as (reads & Hrun & _).
      * exists 1. split; [simpl; lia | reflexivity].
      * now exists reads.
  - destruct (searches_agree_with_presence 4
                {| needle := 12; haystack := of_list (fun _ => 0) [1; 5; 9] |})
      as (_ & _ & Hout).
    + simpl. lia.
    + simpl. lia.
    + exact Hasc.
    + vm_compute. lia.
    + destruct Hout as (reads & Hrun & _).
      * right. vm_compute. reflexivity.
      * now exists reads.
Defined.

(** C5.  [binary_jump_search] has no guard for an empty haystack: it
    reads position 0, which no haystack of size 0 has, and reports what
    it finds there.  With the value 7 next to the empty allocation and
    the needle 7 it reports that it found the needle. *)
Theorem binary_jump_search_empty_reads_position_0 :
  binary_jump_search 1
    {| needle := 7; haystack := of_list (fun _ => 7) [] |}
  = Some ("Found needle!"%string, [0])
  /\ sz (of_list (fun _ => 7) []) = 0.
Proof. split; reflexivity. Qed.

(** ** Range sums *)

(** C2.  On the array 1, 2, 3, 4, 5, whose blocks have size 2, the query
    for the range from 0 to 4 returns 13 where adding the five elements
    gives 15: the first loop stops on the last element of a block, and the
    second loop then adds the sum of the block that this element ends. *)
Theorem range_sum_query_differs_from_direct_sum :
  let a := of_list (fun _ => 0) [1; 2; 3; 4; 5] in
  let rs :=
    setup_slice_sums (fun _ => 0)
      {| slice_sum := fun _ => 0; root_sz := 0; from := 0; to := 4;
         rs_array := a |} in
  root_sz rs = 2
  /\ range_sum_query 6 rs = Some 13
  /\ direct_sum a 0 4 = 15.
Proof. repeat split. Qed.

(** ** The bounds of the range-sum query *)

(** The loop of [create_environments] draws again while [from < to], so
    the bounds it leaves have [to <= from]. *)
Lemma create_environments_bounds rand junk fuel size environments :
  create_environments rand junk fuel size = Some environments ->
  exists from to,
    query_bounds environments = Some (from, to) /\ to <= from.
Proof.
  unfold create_environments.
  destruct (create_int_array rand (junk 0%nat) 0 size) as [vals0 k0].
  destruct (quick_sort fuel _) as [[sorted_array reads]|]; [|discriminate].
  destruct (create_int_array rand (junk 1%nat) k0 size) as [vals1 k1].
  destruct (create_int_array rand (junk 2%nat) k1 size) as [vals2 k2].
  destruct (Z.leb_spec size 0); [discriminate|].
  destruct (while fuel _ _ _) as [[[from to] k]|] eqn:Hloop; [|discriminate].
  intros [= <-]. exists from, to. split; [reflexivity|].
  apply while_exit in Hloop. destruct Hloop as ([[from0 to0] k'] & Hexit).
  injection Hexit as Hlt -> -> _. apply Z.ltb_ge in Hlt. exact Hlt.
Qed.

(** C1.  With 10 items and a generator whose draws for the bounds are 7
    and then 4, [create_environments] keeps these bounds: the query gets
    [from = 7] and [to = 4], and [from <= to] does not hold. *)
Theorem create_environments_leaves_from_above_to :
  let rand := fun k => Z.of_nat (k * 7 mod 10) in
  exists environments,
    create_environments rand (fun _ _ => 0) 12 10 = Some environments
    /\ query_bounds environments = Some (7, 4)
    /\ ~ 7 <= 4.
Proof.
  eexists. split; [vm_compute; reflexivity|].
  split; [reflexivity | lia].
Qed.

(** ** Segments of memory *)

Lemma segment_cons (m : Z -> Z) (lo : Z) (cnt : nat) :
  segment m lo (S cnt) = m lo :: segment m (lo + 1) cnt.
Proof.
  unfold segment. simpl. rewrite Z.add_0_r. f_equal.
  rewrite <- seq_shift, map_map. apply map_ext.
  intros k. f_equal. lia.
Qed.

Lemma segment_one (m : Z -> Z) (lo : Z) : segment m lo 1 = [m lo].
Proof. now rewrite segment_cons. Qed.

Lemma segment_app (m : Z -> Z) (cnt1 cnt2 : nat) :
  forall lo,
  segment m lo (cnt1 + cnt2)
  = segment m lo cnt1 ++ segment m (lo + Z.of_nat cnt1) cnt2.
Proof.
  induction cnt1 as [|cnt1 IH]; intros lo.
  - simpl. now rewrite Z.add_0_r.
  - change (S cnt1 + cnt2)%nat with (S (cnt1 + cnt2)).
    rewrite !segment_cons, IH. simpl. do 3 f_equal. lia.
Qed.

Lemma segment_ext (m m' : Z -> Z) (cnt : nat) :
  forall lo,
  (forall k, lo <= k < lo + Z.of_nat cnt -> m k = m' k) ->
  segment m lo cnt = segment m' lo cnt.
Proof.
  induction cnt as [|cnt IH]; intros lo Hext; [reflexivity|].
  rewrite !segment_cons. f_equal.
  - apply Hext. lia.
  - apply IH. intros k Hk. apply Hext. lia.
Qed.

Lemma segment_Forall (P : Z -> Prop) (m : Z -> Z) (cnt : nat) :
  forall lo,
  Forall P (segment m lo cnt)
  <-> (forall k, lo <= k < lo + Z.of_nat cnt -> P (m k)).
Proof.
  induction cnt as [|cnt IH]; intros lo.
  - split; [intros _ k Hk; lia | constructor].
  - rewrite segment_cons. split.
    + intros H k Hk. inversion H as [|x l Hhd Htl]; subst.
      destruct (Z.eq_dec k lo) as [->|Hne]; [assumption|].
      apply (proj1 (IH (lo + 1)) Htl). lia.
    + intros H. constructor; [apply H; lia|].
      apply IH. intros k Hk. apply H. lia.
Qed.

(** Exchanging the content of two cells of a segment permutes it. *)
Lemma segment_exchange_ordered (m m' : Z -> Z) (lo : Z) (cnt : nat) (i j : Z) :
  lo <= i -> i < j -> j < lo + Z.of_nat cnt ->
  m' i = m j -> m' j = m i ->
  (forall k, k <> i -> k <> j -> m' k = m k) ->
  Permutation (segment m' lo cnt) (segment m lo cnt).
Proof.
  intros Hlo Hij Hhi Hi Hj Hother.
  set (c1 := Z.to_nat (i - lo)).
  set (c2 := Z.to_nat (j - i - 1)).
  set (c3 := Z.to_nat (lo + Z.of_nat cnt - j - 1)).
  replace cnt with (c1 + (1 + (c2 + (1 + c3))))%nat by lia.
  rewrite !segment_app.
  replace (lo + Z.of_nat c1) with i by lia.
  replace (i + Z.of_nat 1 + Z.of_nat c2) with j by lia.
  rewrite !segment_one, Hi, Hj.
  rewrite (segment_ext m' m c1 lo) by (intros; apply Hother; lia).
  rewrite (segment_ext m' m c2 (i + Z.of_nat 1))
    by (intros; apply Hother; lia).
  rewrite (segment_ext m' m c3 (j + Z.of_nat 1))
    by (intros; apply Hother; lia).
  apply Permutation_app_head. simpl.
  rewrite <- !Permutation_middle.
  apply perm_swap.
Qed.

Lemma segment_exchange (m m' : Z -> Z) (lo : Z) (cnt : nat) (i j : Z) :
  lo <= i < lo + Z.of_nat cnt -> lo <= j < lo + Z.of_nat cnt ->
  m' i = m j -> m' j = m i ->
  (forall k, k <> i -> k <> j -> m' k = m k) ->
  Permutation (segment m' lo cnt) (segment m lo cnt).
Proof.
  intros Hi Hj Hmi Hmj Hother.
  destruct (Z.lt_total i j) as [Hlt|[->|Hgt]].
  - apply (segment_exchange_ordered m m' lo cnt i j); auto; lia.
  - rewrite (segment_ext m' m cnt lo); [reflexivity|].
    intros k _. destruct (Z.eq_dec k j) as [->|Hne]; auto.
  - apply (segment_exchange_ordered m m' lo cnt j i); auto; lia.
Qed.

(** ** Quicksort *)

(** The left cursor of [partition_1]: it passes the elements that are at
    most the pivot and stops on a larger one, or one cell after [high]. *)
Lemma left_cursor (fuel : nat) (pivot high lft : Z) (m : memory) :
  lft <= high + 1 ->
  (Z.to_nat (high + 1 - lft) < fuel)%nat ->
  exists l m',
    while fuel
      (fun '(lft, m) =>
         let (v, m) := load lft m in
         ((v <=? pivot) && (lft <=? high), (lft, m)))
      (fun '(lft, m) => Some (lft + 1, m))
      (lft, m) = Some (l, m')
    /\ cell m' = cell m
    /\ lft <= l <= high + 1
    /\ (forall k, lft <= k < l -> cell m k <= pivot)
    /\ (pivot < cell m l \/ high < l).
Proof.
  intros Hlft Hfuel.
  pose (I := fun st : Z * memory =>
    cell (snd st) = cell m /\ lft <= fst st <= high + 1
    /\ (forall k, lft <= k < fst st -> cell m k <= pivot)).
  pose (Q := fun st : Z * memory =>
    I st /\ (pivot < cell m (fst st) \/ high < fst st)).
  pose (v := fun st : Z * memory => Z.to_nat (high + 1 - fst st)).
  match goal with |- context [while fuel ?c ?b ?s0] =>
    destruct (while_rule I Q v c b) with (fuel := fuel) (s := s0)
      as ([l m'] & Hrun & (Hm' & Hl & Hle) & Hstop)
  end.
  - intros [l m1] (Hm1 & Hl & Hle). simpl in *. rewrite Hm1.
    destruct (Z.leb_spec (cell m l) pivot) as [Hv|Hv];
      destruct (Z.leb_spec l high) as [Hh|Hh]; simpl;
      (split; [try discriminate; intros _ | try discriminate; intros _]).
    + eexists. split; [reflexivity|]. unfold I, v. simpl.
      repeat split; try assumption; try lia.
      intros k Hk. destruct (Z.eq_dec k l) as [->|]; [assumption|].
      apply Hle. lia.
    + unfold Q, I. simpl. repeat split; try assumption; lia.
    + unfold Q, I. simpl. repeat split; try assumption; lia.
    + unfold Q, I. simpl. repeat split; try assumption; lia.
  - unfold I. simpl. repeat split; lia.
  - unfold v. simpl. lia.
  - exists l, m'. simpl in *. auto.
Qed.

(** The right cursor of [partition_1]: it passes the elements above the
    pivot and stops on one that is at most the pivot; the pivot's own
    cell, at [low], stops it at the latest. *)
Lemma right_cursor (fuel : nat) (pivot low rgt : Z) (m : memory) :
  low <= rgt ->
  cell m low <= pivot ->
  (Z.to_nat (rgt - low) < fuel)%nat ->
  exists r m',
    while fuel
      (fun '(rgt, m) =>
         let (v, m) := load rgt m in (pivot <? v, (rgt, m)))
      (fun '(rgt, m) => Some (rgt - 1, m))
      (rgt, m) = Some (r, m')
    /\ cell m' = cell m
    /\ low <= r <= rgt
    /\ (forall k, r < k <= rgt -> pivot < cell m k)
    /\ cell m r <= pivot.
Proof.
  intros Hrgt Hlow Hfuel.
  pose (I := fun st : Z * memory =>
    cell (snd st) = cell m /\ low <= fst st <= rgt
    /\ (forall k, fst st < k <= rgt -> pivot < cell m k)).
  pose (Q := fun st : Z * memory => I st /\ cell m (fst st) <= pivot).
  pose (v := fun st : Z * memory => Z.to_nat (fst st - low)).
  match goal with |- context [while fuel ?c ?b ?s0] =>
    destruct (while_rule I Q v c b) with (fuel := fuel) (s := s0)
      as ([r m'] & Hrun & (Hm' & Hr & Hgt) & Hstop)
  end.
  - intros [r m1] (Hm1 & Hr & Hgt). simpl in *. rewrite Hm1.
    destruct (Z.ltb_spec pivot (cell m r)) as [Hv|Hv]; simpl;
      (split; [try discriminate; intros _ | try discriminate; intros _]).
    + assert (r <> low) by (intros ->; lia).
      eexists. split; [reflexivity|]. unfold I, v. simpl.
      repeat split; try assumption; try lia.
      intros k Hk. destruct (Z.eq_dec k r) as [->|]; [assumption|].
      apply Hgt. lia.
    + unfold Q, I. simpl. repeat split; try assumption; lia.
  - unfold I. simpl. repeat split; lia.
  - unfold v. simpl. lia.
  - exists r, m'. simpl in *. auto.
Qed.

(** Case analysis on the cells that [upd] compares. *)
Ltac upd_cases :=
  unfold upd;
  repeat match goal with
         | |- context [?a =? ?b] => destruct (Z.eqb_spec a b)
         end;
  subst; try lia; auto.

(** [partition_1] returns the final place [p] of the pivot: the elements
    before it are at most the pivot, the elements after it are larger,
    the cells from [low] to [high] are permuted and no other cell
    changes. *)
Lemma partition_1_spec (fuel : nat) (low high : Z) (m : memory) :
  low < high ->
  (Z.to_nat (high - low) + 2 <= fuel)%nat ->
  exists p m',
    partition_1 fuel low high m = Some (p, m')
    /\ low <= p <= high
    /\ (forall k, low <= k < p -> cell m' k <= cell m' p)
    /\ (forall k, p < k <= high -> cell m' p < cell m' k)
    /\ (forall k, k < low \/ high < k -> cell m' k = cell m k)
    /\ Permutation (segment (cell m') low (Z.to_nat (high - low + 1)))
                   (segment (cell m) low (Z.to_nat (high - low + 1))).
Proof.
  intros Hlh Hfuel. unfold partition_1.
  change (load low m)
    with (cell m low, {| cell := cell m; accessed := low :: accessed m |}).
  cbv iota.
  set (pivot := cell m low).
  set (cnt := Z.to_nat (high - low + 1)).
  pose (I := fun st : Z * Z * memory =>
    let '(lft, rgt, m1) := st in
    low <= lft <= high + 1 /\ low <= rgt <= high
    /\ cell m1 low = pivot
    /\ (forall k, low <= k < lft -> cell m1 k <= pivot)
    /\ (forall k, rgt < k <= high -> pivot < cell m1 k)
    /\ (forall k, k < low \/ high < k -> cell m1 k = cell m k)
    /\ Permutation (segment (cell m1) low cnt) (segment (cell m) low cnt)
    /\ (lft < rgt /\ cell m1 lft <= pivot
        \/ rgt < lft /\ cell m1 rgt <= pivot)).
  pose (Q := fun st : Z * Z * memory =>
    I st /\ snd (fst st) <= fst (fst st)).
  pose (v := fun st : Z * Z * memory =>
    Z.to_nat (snd (fst st) - fst (fst st))).
  match goal with |- context [while fuel ?c ?b ?s0] =>
    destruct (while_rule I Q v c b) with (fuel := fuel) (s := s0)
      as ([[lft rgt] m1] & -> & HI & Hdone)
  end.
  - (* one round of the outer loop *)
    intros [[lft rgt] m1]
           (Hlft & Hrgt & Hpiv & Hsmall & Hlarge & Hframe & Hperm & Hcur).
    cbn [fst snd]. split.
    + intros Hcond. apply Z.ltb_lt in Hcond.
      destruct Hcur as [[_ Hcur]|[Hcur _]]; [|lia].
      destruct (left_cursor fuel pivot high lft m1)
        as (l & m2 & -> & Hm2 & Hl & Hle & Hstop); [lia | lia |].
      assert (Hadv : lft < l).
      { destruct (Z.eq_dec l lft) as [->|]; lia. }
      destruct (right_cursor fuel pivot low rgt m2)
        as (r & m3 & -> & Hm3 & Hr & Hgt & Hstop');
        [lia | rewrite Hm2; lia | lia |].
      rewrite Hm2 in *. clear Hm2.
      destruct (Z.ltb_spec l r) as [Hlr|Hlr]; cbn [load store cell].
      * eexists. split; [reflexivity|].
        split; [|unfold v; cbn [fst snd]; lia].
        unfold I. cbn [store cell]. rewrite Hm3.
        split; [lia|]. split; [lia|].
        split; [upd_cases|].
        split; [intros k Hk; upd_cases;
                destruct (Z_lt_ge_dec k lft);
                [apply Hsmall | apply Hle]; lia|].
        split; [intros k Hk; upd_cases;
                destruct (Z_le_gt_dec k rgt);
                [apply Hgt | apply Hlarge]; lia|].
        split; [intros k Hk; upd_cases|].
        split.
        { etransitivity; [|exact Hperm].
          apply (segment_exchange _ _ low cnt l r);
            try (unfold cnt; lia); try (intros; upd_cases); upd_cases. }
        left. split; [lia | upd_cases].
      * eexists. split; [reflexivity|].
        split; [|unfold v; cbn [fst snd]; lia].
        unfold I. rewrite Hm3.
        assert (r <> l) by (intros ->; lia).
        repeat split; try assumption; try lia.
        -- intros k Hk. destruct (Z_lt_ge_dec k lft);
             [apply Hsmall | apply Hle]; lia.
        -- intros k Hk. destruct (Z_le_gt_dec k rgt);
             [apply Hgt | apply Hlarge]; lia.
    + intros Hcond. apply Z.ltb_ge in Hcond. unfold Q, I. cbn [fst snd].
      repeat split; try assumption; lia.
  - (* before the loop *)
    unfold I. cbn [cell].
    repeat split; try lia; try reflexivity.
  - unfold v. cbn [fst snd]. lia.
  - (* after the loop: the pivot goes to its place *)
    cbn [fst snd] in Hdone.
    destruct HI
      as (Hlft & Hrgt & Hpiv & Hsmall & Hlarge & Hframe & Hperm & Hcur).
    destruct Hcur as [[Hcur _]|[Hcur Hle]]; [lia|].
    cbn [load store cell]. eexists. eexists.
    split; [reflexivity|]. cbn [store cell].
    split; [lia|].
    split; [intros k Hk; upd_cases; apply Hsmall; lia|].
    split; [intros k Hk; upd_cases; apply Hlarge; lia|].
    split; [intros k Hk; upd_cases|].
    etransitivity; [|exact Hperm].
    apply (segment_exchange _ _ low cnt low rgt);
      try (unfold cnt; lia); try (intros; upd_cases); upd_cases.
Qed.

(** [quick_sort_1] returns, puts the cells from [low] to [high] in
    ascending order by permuting them, and leaves the other cells alone. *)
Lemma quick_sort_1_spec (fuel : nat) :
  forall low high m,
  (Z.to_nat (high - low + 1) + 2 <= fuel)%nat ->
  exists m',
    quick_sort_1 fuel low high m = Some m'
    /\ ascending_between (cell m') low high
    /\ (forall k, k < low \/ high < k -> cell m' k = cell m k)
    /\ Permutation (segment (cell m') low (Z.to_nat (high - low + 1)))
                   (segment (cell m) low (Z.to_nat (high - low + 1))).
Proof.
  induction fuel as [|fuel IH]; intros low high m Hfuel; [lia|].
  cbn [quick_sort_1].
  destruct (Z.ltb_spec low high) as [Hlh|Hlh].
  - destruct (partition_1_spec (S fuel) low high m)
      as (p & m1 & -> & Hp & Hsmall & Hlarge & Hframe1 & Hperm1);
      [lia | lia |].
    destruct (IH low (p - 1) m1)
      as (m2 & -> & Hasc2 & Hframe2 & Hperm2); [lia|].
    destruct (IH (p + 1) high m2)
      as (m3 & -> & Hasc3 & Hframe3 & Hperm3); [lia|].
    set (c1 := Z.to_nat (p - 1 - low + 1)) in *.
    set (c2 := Z.to_nat (high - (p + 1) + 1)) in *.
    set (pv := cell m1 p) in *.
    assert (Hpv : cell m3 p = pv).
    { rewrite Hframe3, Hframe2 by lia. reflexivity. }
    assert (Hleft : forall k, low <= k < p -> cell m3 k <= pv).
    { intros k Hk. rewrite Hframe3 by lia. revert k Hk.
      assert (H : Forall (fun x => x <= pv) (segment (cell m2) low c1)).
      { eapply Permutation_Forall; [symmetry; exact Hperm2|].
        apply segment_Forall. intros k Hk. apply Hsmall. lia. }
      intros k Hk.
      apply (proj1 (segment_Forall _ _ _ _) H). lia. }
    assert (Hright : forall k, p < k <= high -> pv < cell m3 k).
    { assert (H : Forall (fun x => pv < x) (segment (cell m3) (p + 1) c2)).
      { eapply Permutation_Forall; [symmetry; exact Hperm3|].
        apply segment_Forall. intros k Hk.
        rewrite Hframe2 by lia. apply Hlarge. lia. }
      intros k Hk.
      apply (proj1 (segment_Forall _ _ _ _) H). lia. }
    exists m3. split; [reflexivity|]. split; [|split].
    + intros i j Hij Hj.
      destruct (Z.lt_total j p) as [Hjp|[->|Hjp]].
      * rewrite !(Hframe3) by lia. apply Hasc2; lia.
      * destruct (Z.eq_dec i p) as [->|]; [lia|].
        rewrite Hpv. apply Hleft. lia.
      * destruct (Z.lt_total i p) as [Hip|[->|Hip]].
        -- pose proof (Hleft i ltac:(lia)).
           pose proof (Hright j ltac:(lia)). lia.
        -- rewrite Hpv. pose proof (Hright j ltac:(lia)). lia.
        -- apply Hasc3; lia.
    + intros k Hk. rewrite Hframe3, Hframe2, Hframe1 by lia. reflexivity.
    + etransitivity; [|exact Hperm1].
      replace (Z.to_nat (high - low + 1)) with (c1 + (1 + c2))%nat by lia.
      rewrite !segment_app, !segment_one.
      replace (low + Z.of_nat c1) with p by lia.
      change (Z.of_nat 1) with 1.
      apply Permutation_app; [|apply Permutation_app].
      * rewrite (segment_ext (cell m3) (cell m2))
          by (intros; apply Hframe3; lia).
        exact Hperm2.
      * now rewrite Hpv.
      * rewrite <- (segment_ext (cell m2) (cell m1))
          by (intros; apply Hframe2; lia).
        exact Hperm3.
  - exists m. split; [reflexivity|]. split; [|split].
    + intros i j Hij Hj. assert (i = j) as -> by lia. lia.
    + reflexivity.
    + reflexivity.
Qed.

Lemma ascending_between_sorted (c : Z -> Z) (cnt : nat) :
  forall lo,
  ascending_between c lo (lo + Z.of_nat cnt - 1) ->
  StronglySorted Z.le (segment c lo cnt).
Proof.
  induction cnt as [|cnt IH]; intros lo Hasc; [constructor|].
  rewrite segment_cons. constructor.
  - apply IH. intros i j Hij Hj. apply Hasc; lia.
  - apply segment_Forall. intros k Hk. apply Hasc; lia.
Qed.

(** Two sorted lists with the same elements are the same list. *)
Lemma sorted_permutation_unique (l1 : list Z) :
  forall l2,
  StronglySorted Z.le l1 -> StronglySorted Z.le l2 ->
  Permutation l1 l2 -> l1 = l2.
Proof.
  induction l1 as [|x l1 IH]; intros l2 Hs1 Hs2 Hperm.
  - apply Permutation_nil in Hperm. now subst.
  - destruct l2 as [|y l2];
      [apply Permutation_sym, Permutation_nil in Hperm; discriminate|].
    apply StronglySorted_inv in Hs1 as [Hs1 Hx].
    apply StronglySorted_inv in Hs2 as [Hs2 Hy].
    assert (x = y) as <-.
    { assert (Hxin : In x (y :: l2))
        by (eapply Permutation_in; [exact Hperm | now left]).
      assert (Hyin : In y (x :: l1))
        by (eapply Permutation_in; [symmetry; exact Hperm | now left]).
      rewrite Forall_forall in Hx, Hy.
      destruct Hxin as [->|Hxin]; [reflexivity|].
      destruct Hyin as [->|Hyin]; [reflexivity|].
      specialize (Hx _ Hyin). specialize (Hy _ Hxin). lia. }
    f_equal. apply IH; try assumption.
    eapply Permutation_cons_inv. exact Hperm.
Qed.

Lemma segment_length (m : Z -> Z) (lo : Z) (cnt : nat) :
  List.length (segment m lo cnt) = cnt.
Proof. unfold segment. now rewrite length_map, length_seq. Qed.

Lemma segment_nth (m : Z -> Z) (cnt : nat) :
  forall lo k d,
  (k < cnt)%nat -> nth k (segment m lo cnt) d = m (lo + Z.of_nat k).
Proof.
  induction cnt as [|cnt IH]; intros lo k d Hk; [lia|].
  rewrite segment_cons. destruct k as [|k]; cbn [nth].
  - f_equal. lia.
  - rewrite IH by lia. f_equal. lia.
Qed.

Lemma to_list_of_list (junk : Z -> Z) (l : list Z) :
  to_list (of_list junk l) = l.
Proof.
  unfold to_list. cbn [of_list sz vals]. rewrite Nat2Z.id.
  apply nth_ext with (d := 0) (d' := 0); rewrite segment_length;
    [reflexivity|].
  intros k Hk. rewrite segment_nth by assumption.
  destruct (Z.leb_spec 0 (0 + Z.of_nat k)); [|lia].
  destruct (Z.ltb_spec (0 + Z.of_nat k) (Z.of_nat (List.length l))); [|lia].
  cbn [andb]. f_equal. lia.
Qed.

(** [quick_sort] on any array: it returns, the elements are permuted and
    in ascending order, and no cell outside the array is changed. *)
Lemma quick_sort_spec (fuel : nat) (a : array) :
  (Z.to_nat (sz a) + 2 <= fuel)%nat ->
  exists a' reads,
    quick_sort fuel a = Some (a', reads)
    /\ sz a' = sz a
    /\ Permutation (to_list a') (to_list a)
    /\ StronglySorted Z.le (to_list a')
    /\ (forall k, k < 0 \/ sz a <= k -> vals a' k = vals a k).
Proof.
  intros Hfuel. unfold quick_sort.
  destruct (quick_sort_1_spec fuel 0 (sz a - 1)
              {| cell := vals a; accessed := [] |})
    as (m' & -> & Hasc & Hframe & Hperm); [lia|].
  cbn [cell] in *.
  replace (sz a - 1 - 0 + 1) with (sz a) in Hperm by lia.
  eexists. eexists. split; [reflexivity|]. unfold to_list. cbn [sz vals].
  repeat split.
  - exact Hperm.
  - apply ascending_between_sorted.
    intros i j Hij Hj. apply Hasc; lia.
  - intros k Hk. apply Hframe. lia.
Qed.

(** C3.  For every sequence, [quick_sort] returns a permutation of it in
    non-decreasing order; a sequence that is already sorted comes back
    unchanged, and so does the result of sorting when it is sorted
    again. *)
Theorem quick_sort_sorts (fuel : nat) (junk : Z -> Z) (l : list Z) :
  (List.length l + 2 <= fuel)%nat ->
  exists a' reads,
    quick_sort fuel (of_list junk l) = Some (a', reads)
    /\ Permutation l (to_list a')
    /\ Sorted Z.le (to_list a')
    /\ (Sorted Z.le l -> to_list a' = l)
    /\ (exists a'' reads',
          quick_sort fuel a' = Some (a'', reads')
          /\ to_list a'' = to_list a').
Proof.
  intros Hfuel.
  destruct (quick_sort_spec fuel (of_list junk l))
    as (a' & reads & Hrun & Hsz & Hperm & Hsorted & _);
    [cbn [of_list sz]; lia|].
  rewrite to_list_of_list in Hperm.
  exists a', reads. split; [exact Hrun|].
  split; [now symmetry|].
  split; [now apply StronglySorted_Sorted|].
  split.
  - intros Hl. apply sorted_permutation_unique; try assumption.
    apply Sorted_StronglySorted; [exact Z.le_trans | exact Hl].
  - destruct (quick_sort_spec fuel a')
      as (a'' & reads' & Hrun' & _ & Hperm' & Hsorted' & _);
      [rewrite Hsz; cbn [of_list sz]; lia|].
    exists a'', reads'. split; [exact Hrun'|].
    now apply sorted_permutation_unique.
Qed.

Lemma quick_sort_sorts_witness :
  exists a' reads,
    quick_sort 5 (of_list (fun _ => 0) [3; 1; 2]) = Some (a', reads)
    /\ Permutation [3; 1; 2] (to_list a')
    /\ Sorted Z.le (to_list a')
    /\ (Sorted Z.le [3; 1; 2] -> to_list a' = [3; 1; 2])
    /\ (exists a'' reads',
          quick_sort 5 a' = Some (a'', reads')
          /\ to_list a'' = to_list a').
Proof.
  apply (quick_sort_sorts 5 (fun _ => 0) [3; 1; 2]). simpl. lia.
Defined.

(** C4.  Sorting the array 2, 1 makes [partition_1] evaluate
    [array[left]] with [left = 2]: one cell after [high = 1], and
    outside the array, which has 2 elements.  The test [left <= high]
    comes after the read in the loop condition. *)
Theorem quick_sort_reads_after_high :
  exists a',
    quick_sort 4 (of_list (fun _ => 0) [2; 1])
    = Some (a', [1; 0; 1; 1; 2; 1; 0; 0])
    /\ to_list a' = [1; 2]
    /\ sz (of_list (fun _ => 0) [2; 1]) = 2
    /\ partition_1 4 0 1
         {| cell := vals (of_list (fun _ => 0) [2; 1]); accessed := [] |}
       = Some (1, {| cell := vals a'; accessed := [1; 0; 1; 1; 2; 1; 0; 0] |}).
Proof.
  eexists. split; [vm_compute; reflexivity|].
  repeat split.
Qed.

(** ** The report *)











(** ** The size argument *)








(** * Further properties of the routines *)

(** ** Searching, whatever the order of the haystack *)

(** X1.  [linear_search] reports that it found the needle exactly when
    the needle is an element of the haystack, for every haystack of fewer
    than 2^31 elements (the range of its counter): sorted or not, and
    also when it is empty. *)
Theorem linear_search_iff_present (s : search) :
  sz (haystack s) < 2 ^ 31 ->
  (present s -> linear_search s = "Found needle!"%string)
  /\ (~ present s -> linear_search s = "Needle Not Found!"%string).
Proof.
  intros Hint. unfold linear_search. split.
  - intros (k & Hk & Heq). apply linear_search_from_found.
    exists k. split; [lia | assumption].
  - intros Habs. apply linear_search_from_absent.
    intros k Hk Heq. apply Habs. exists k. split; [lia | assumption].
Qed.

Lemma linear_search_iff_present_witness :
  linear_search {| needle := 5; haystack := of_list (fun _ => 0) [9; 5; 1] |}
  = "Found needle!"%string
  /\ linear_search {| needle := 5; haystack := of_list (fun _ => 5) [] |}
     = "Needle Not Found!"%string.
Proof.
  split.
  - apply (linear_search_iff_present
             {| needle := 5; haystack := of_list (fun _ => 0) [9; 5; 1] |}).
    + simpl. lia.
    + exists 1. split; [simpl; lia | reflexivity].
  - apply (linear_search_iff_present
             {| needle := 5; haystack := of_list (fun _ => 5) [] |}).
    + simpl. lia.
    + intros (k & Hk & _). simpl in Hk. lia.
Defined.

(** X2.  On a haystack that is not empty, sorted or not,
    [binary_jump_search] returns, reads only positions of the haystack,
    and reports that it found the needle only if the needle is an
    element of the haystack. *)
Theorem binary_jump_search_stays_inside (fuel : nat) (s : search) :
  0 < sz (haystack s) ->
  (Z.to_nat (sz (haystack s)) < fuel)%nat ->
  exists msg reads,
    binary_jump_search fuel s = Some (msg, reads)
    /\ Forall (fun i => 0 <= i < sz (haystack s)) reads
    /\ (msg = "Found needle!"%string \/ msg = "Needle not found!"%string)
    /\ (msg = "Found needle!"%string -> present s).
Proof.
  intros Hsz Hfuel.
  destruct (binary_jump_search_position fuel s Hsz Hfuel)
    as (pos & reads & Hrun & Hpos & _ & _ & Hreads).
  eexists. exists reads. split; [exact Hrun|]. split; [exact Hreads|].
  destruct (Z.eqb_spec (vals (haystack s) pos) (needle s)) as [Heq|Hne].
  - split; [now left|]. intros _. now exists pos.
  - split; [now right | discriminate].
Qed.

Lemma binary_jump_search_stays_inside_witness :
  exists msg reads,
    binary_jump_search 4
      {| needle := 5; haystack := of_list (fun _ => 0) [9; 5; 1] |}
    = Some (msg, reads)
    /\ Forall (fun i => 0 <= i < 3) reads
    /\ (msg = "Found needle!"%string \/ msg = "Needle not found!"%string)
    /\ (msg = "Found needle!"%string ->
        present {| needle := 5; haystack := of_list (fun _ => 0) [9; 5; 1] |}).
Proof.
  apply (binary_jump_search_stays_inside 4
           {| needle := 5; haystack := of_list (fun _ => 0) [9; 5; 1] |}).
  - simpl. lia.
  - simpl. lia.
Defined.

(** ** Quicksort on a part of an array *)

(** X3.  On a subrange with [low < high], [partition_1] returns a place
    [p] of the subrange such that the elements before [p] are at most the
    element at [p] and the elements after it are larger; it permutes the
    cells of the subrange and changes no cell outside it. *)
Theorem partition_1_splits (fuel : nat) (low high : Z) (m : memory) :
  low < high ->
  (Z.to_nat (high - low) + 2 <= fuel)%nat ->
  exists p m',
    partition_1 fuel low high m = Some (p, m')
    /\ low <= p <= high
    /\ (forall k, low <= k < p -> cell m' k <= cell m' p)
    /\ (forall k, p < k <= high -> cell m' p < cell m' k)
    /\ (forall k, k < low \/ high < k -> cell m' k = cell m k)
    /\ Permutation (segment (cell m') low (Z.to_nat (high - low + 1)))
                   (segment (cell m) low (Z.to_nat (high - low + 1))).
Proof. apply partition_1_spec. Qed.

Lemma partition_1_splits_witness :
  exists p m',
    partition_1 5 1 3
      {| cell := vals (of_list (fun _ => 0) [7; 4; 9; 2; 8]);
         accessed := [] |} = Some (p, m')
    /\ 1 <= p <= 3.
Proof.
  destruct (partition_1_splits 5 1 3
              {| cell := vals (of_list (fun _ => 0) [7; 4; 9; 2; 8]);
                 accessed := [] |})
    as (p & m' & Hrun & Hp & _); [lia | simpl; lia |].
  exists p, m'. split; [exact Hrun | exact Hp].
Defined.

(** X4.  [quick_sort_1] on a subrange returns, puts the cells from [low]
    to [high] in ascending order by permuting them, and changes no other
    cell; on a subrange with fewer than two cells it changes nothing. *)
Theorem quick_sort_1_sorts_subrange (fuel : nat) (low high : Z) (m : memory) :
  (Z.to_nat (high - low + 1) + 2 <= fuel)%nat ->
  exists m',
    quick_sort_1 fuel low high m = Some m'
    /\ ascending_between (cell m') low high
    /\ (forall k, k < low \/ high < k -> cell m' k = cell m k)
    /\ Permutation (segment (cell m') low (Z.to_nat (high - low + 1)))
                   (segment (cell m) low (Z.to_nat (high - low + 1)))
    /\ (high <= low -> m' = m).
Proof.
  intros Hfuel.
  destruct (quick_sort_1_spec fuel low high m Hfuel)
    as (m' & Hrun & Hasc & Hframe & Hperm).
  exists m'. repeat split; try assumption.
  intros Hsmall. destruct fuel as [|fuel]; [lia|].
  cbn [quick_sort_1] in Hrun.
  destruct (Z.ltb_spec low high); [lia|]. now injection Hrun.
Qed.

Lemma quick_sort_1_sorts_subrange_witness :
  exists m',
    quick_sort_1 5 1 3
      {| cell := vals (of_list (fun _ => 0) [7; 4; 9; 2; 8]);
         accessed := [] |} = Some m'
    /\ ascending_between (cell m') 1 3
    /\ cell m' 0 = 7 /\ cell m' 4 = 8.
Proof.
  destruct (quick_sort_1_sorts_subrange 5 1 3
              {| cell := vals (of_list (fun _ => 0) [7; 4; 9; 2; 8]);
                 accessed := [] |})
    as (m' & Hrun & Hasc & Hframe & _); [simpl; lia|].
  exists m'. split; [exact Hrun|]. split; [exact Hasc|].
  split; rewrite Hframe by lia; reflexivity.
Defined.

(** ** The cells that quicksort touches *)

Section PartialLoops.
Context {S : Type}.

(** Partial correctness of [while]: what an invariant gives when the loop
    ends. *)
Lemma while_partial (I Q : S -> Prop)
      (cond : S -> bool * S) (body : S -> option S) :
  (forall s, I s ->
     (fst (cond s) = true ->
      forall s', body (snd (cond s)) = Some s' -> I s')
     /\ (fst (cond s) = false -> Q (snd (cond s)))) ->
  forall fuel s s', I s -> while fuel cond body s = Some s' -> Q s'.
Proof.
  intros step fuel.
  induction fuel as [|fuel IH]; intros s s' Hs; [discriminate|].
  destruct (step s Hs) as [Htrue Hfalse].
  cbn [while]. destruct (cond s) as [b s1]; cbn [fst snd] in *.
  destruct b.
  - destruct (body s1) as [s2|] eqn:Hbody; [|discriminate].
    apply IH. now apply Htrue.
  - intros [= <-]. now apply Hfalse.
Qed.
End PartialLoops.

Lemma grown_refl (R : Z -> Prop) (m : memory) : grown R m m.
Proof. exists []. split; [reflexivity | constructor]. Qed.

Lemma grown_step (R : Z -> Prop) (m m1 m' : memory) (i : Z) :
  grown R m m1 -> accessed m' = i :: accessed m1 -> R i -> grown R m m'.
Proof.
  intros (extra & Hacc & Hall) Hm' Hi. exists (i :: extra).
  split; [rewrite Hm', Hacc; reflexivity | now constructor].
Qed.

Lemma grown_trans (R : Z -> Prop) (m m1 m2 : memory) :
  grown R m m1 -> grown R m1 m2 -> grown R m m2.
Proof.
  intros (e1 & H1 & F1) (e2 & H2 & F2). exists (e2 ++ e1).
  split; [rewrite H2, H1; apply app_assoc | now apply Forall_app].
Qed.

Lemma grown_weaken (R R' : Z -> Prop) (m m' : memory) :
  (forall i, R i -> R' i) -> grown R m m' -> grown R' m m'.
Proof.
  intros Himp (extra & Hacc & Hall). exists extra.
  split; [assumption | eapply Forall_impl; eauto].
Qed.

Lemma grown_cons (R : Z -> Prop) (m : memory) (c c' : Z -> Z)
      (l : list Z) (i : Z) :
  R i ->
  grown R m {| cell := c; accessed := l |} ->
  grown R m {| cell := c'; accessed := i :: l |}.
Proof. intros Hi H. now apply (grown_step R m _ _ i H). Qed.

Lemma grown_same (R : Z -> Prop) (m m1 m' : memory) :
  accessed m' = accessed m1 -> grown R m m1 -> grown R m m'.
Proof. intros Heq (extra & Hacc & Hall). exists extra. now rewrite Heq. Qed.

(** The left cursor reads the cells it passes and the one it stops on. *)
Lemma left_cursor_accesses (fuel : nat) (pivot high lft l : Z)
      (m m' : memory) :
  while fuel
    (fun '(lft, m) =>
       let (v, m) := load lft m in
       ((v <=? pivot) && (lft <=? high), (lft, m)))
    (fun '(lft, m) => Some (lft + 1, m))
    (lft, m) = Some (l, m') ->
  grown (fun i => lft <= i <= l) m m'.
Proof.
  pose (I := fun st : Z * memory =>
    lft <= fst st /\ grown (fun i => lft <= i < fst st) m (snd st)).
  pose (Q := fun st : Z * memory =>
    grown (fun i => lft <= i <= fst st) m (snd st)).
  intros Hrun.
  match type of Hrun with while fuel ?c ?b ?s0 = _ =>
    apply (while_partial I Q c b) with (s := s0) in Hrun
  end; [exact Hrun | | split; [cbn [fst]; lia | apply grown_refl]].
  intros [l1 m1] [Hl1 Hgrown]. cbn [fst snd] in *.
  unfold load. cbv iota. cbn [fst snd]. split.
  - intros _ s' [= <-]. unfold I. cbn [fst snd]. split; [lia|].
    eapply grown_step with (i := l1); [|reflexivity|lia].
    eapply grown_weaken; [|exact Hgrown]. cbv beta. intros; lia.
  - intros _. unfold Q. cbn [fst snd].
    eapply grown_step with (i := l1); [|reflexivity|lia].
    eapply grown_weaken; [|exact Hgrown]. cbv beta. intros; lia.
Qed.

(** The right cursor likewise. *)
Lemma right_cursor_accesses (fuel : nat) (pivot rgt r : Z) (m m' : memory) :
  while fuel
    (fun '(rgt, m) =>
       let (v, m) := load rgt m in (pivot <? v, (rgt, m)))
    (fun '(rgt, m) => Some (rgt - 1, m))
    (rgt, m) = Some (r, m') ->
  grown (fun i => r <= i <= rgt) m m'.
Proof.
  pose (I := fun st : Z * memory =>
    fst st <= rgt /\ grown (fun i => fst st < i <= rgt) m (snd st)).
  pose (Q := fun st : Z * memory =>
    grown (fun i => fst st <= i <= rgt) m (snd st)).
  intros Hrun.
  match type of Hrun with while fuel ?c ?b ?s0 = _ =>
    apply (while_partial I Q c b) with (s := s0) in Hrun
  end; [exact Hrun | | split; [cbn [fst]; lia | apply grown_refl]].
  intros [r1 m1] [Hr1 Hgrown]. cbn [fst snd] in *.
  unfold load. cbv iota. cbn [fst snd]. split.
  - intros _ s' [= <-]. unfold I. cbn [fst snd]. split; [lia|].
    eapply grown_step with (i := r1); [|reflexivity|lia].
    eapply grown_weaken; [|exact Hgrown]. cbv beta. intros; lia.
  - intros _. unfold Q. cbn [fst snd].
    eapply grown_step with (i := r1); [|reflexivity|lia].
    eapply grown_weaken; [|exact Hgrown]. cbv beta. intros; lia.
Qed.

(** [partition_1] accesses the cells from [low] to [high + 1] only. *)
Lemma partition_1_accesses (fuel : nat) (low high : Z) (m : memory) :
  low < high ->
  (Z.to_nat (high - low) + 2 <= fuel)%nat ->
  exists p m',
    partition_1 fuel low high m = Some (p, m')
    /\ low <= p <= high
    /\ grown (fun i => low <= i <= high + 1) m m'.
Proof.
  intros Hlh Hfuel. unfold partition_1.
  change (load low m)
    with (cell m low, {| cell := cell m; accessed := low :: accessed m |}).
  cbv iota.
  set (pivot := cell m low).
  set (R := fun i => low <= i <= high + 1).
  pose (I := fun st : Z * Z * memory =>
    let '(lft, rgt, m1) := st in
    low <= lft <= high + 1 /\ low <= rgt <= high
    /\ cell m1 low = pivot
    /\ (lft < rgt /\ cell m1 lft <= pivot \/ rgt < lft)
    /\ grown R m m1).
  pose (Q := fun st : Z * Z * memory =>
    I st /\ snd (fst st) <= fst (fst st)).
  pose (v := fun st : Z * Z * memory =>
    Z.to_nat (snd (fst st) - fst (fst st))).
  match goal with |- context [while fuel ?c ?b ?s0] =>
    destruct (while_rule I Q v c b) with (fuel := fuel) (s := s0)
      as ([[lft rgt] m1] & -> & HI & Hdone)
  end.
  - intros [[lft rgt] m1] (Hlft & Hrgt & Hpiv & Hcur & Hgrown).
    cbn [fst snd]. split.
    + intros Hcond. apply Z.ltb_lt in Hcond.
      destruct Hcur as [[_ Hcur]|Hcur]; [|lia].
      destruct (left_cursor fuel pivot high lft m1)
        as (l & m2 & Hrun2 & Hm2 & Hl & Hle & Hstop); [lia | lia |].
      pose proof (left_cursor_accesses _ _ _ _ _ _ _ Hrun2) as Hgrown2.
      rewrite Hrun2.
      assert (Hadv : lft < l).
      { destruct (Z.eq_dec l lft) as [->|]; lia. }
      destruct (right_cursor fuel pivot low rgt m2)
        as (r & m3 & Hrun3 & Hm3 & Hr & Hgt & Hstop');
        [lia | rewrite Hm2; lia | lia |].
      pose proof (right_cursor_accesses _ _ _ _ _ _ Hrun3) as Hgrown3.
      rewrite Hrun3. rewrite Hm2 in *.
      assert (Hgrown' : grown R m m3).
      { eapply grown_trans; [|eapply grown_weaken; [|exact Hgrown3]].
        - eapply grown_trans; [exact Hgrown|].
          eapply grown_weaken; [|exact Hgrown2].
          unfold R. cbv beta. intros; lia.
        - unfold R. cbv beta. intros; lia. }
      destruct (Z.ltb_spec l r) as [Hlr|Hlr]; cbn [load store cell].
      * eexists. split; [reflexivity|].
        split; [|unfold v; cbn [fst snd]; lia].
        unfold I. cbn [store cell accessed]. rewrite Hm3.
        split; [lia|]. split; [lia|].
        split; [upd_cases|].
        split; [left; split; [lia | upd_cases]|].
        repeat (apply grown_cons with (c := cell m1); [unfold R; lia|]).
        now apply (grown_same R m m3).
      * eexists. split; [reflexivity|].
        split; [|unfold v; cbn [fst snd]; lia].
        unfold I. rewrite Hm3.
        assert (r <> l) by (intros ->; lia).
        repeat split; try assumption; try lia.
    + intros Hcond. apply Z.ltb_ge in Hcond. unfold Q, I. cbn [fst snd].
      repeat split; try assumption; lia.
  - unfold I. cbn [cell].
    repeat split; try lia; try reflexivity.
    eapply grown_step; [apply grown_refl|reflexivity|unfold R; lia].
  - unfold v. cbn [fst snd]. lia.
  - cbn [fst snd] in Hdone.
    destruct HI as (Hlft & Hrgt & Hpiv & Hcur & Hgrown).
    cbn [load store cell]. eexists. eexists.
    split; [reflexivity|]. split; [lia|]. cbn [accessed].
    repeat (apply grown_cons with (c := cell m1); [unfold R; lia|]).
    now apply (grown_same R m m1).
Qed.

(** [quick_sort_1] likewise. *)
Lemma quick_sort_1_accesses (fuel : nat) :
  forall low high m,
  (Z.to_nat (high - low + 1) + 2 <= fuel)%nat ->
  exists m',
    quick_sort_1 fuel low high m = Some m'
    /\ grown (fun i => low <= i <= high + 1) m m'.
Proof.
  induction fuel as [|fuel IH]; intros low high m Hfuel; [lia|].
  cbn [quick_sort_1].
  destruct (Z.ltb_spec low high) as [Hlh|Hlh].
  - destruct (partition_1_accesses (S fuel) low high m)
      as (p & m1 & -> & Hp & Hgrown1); [lia | lia |].
    destruct (IH low (p - 1) m1) as (m2 & -> & Hgrown2); [lia|].
    destruct (IH (p + 1) high m2) as (m3 & -> & Hgrown3); [lia|].
    exists m3. split; [reflexivity|].
    eapply grown_trans; [eapply grown_trans; [exact Hgrown1|]|].
    + eapply grown_weaken; [|exact Hgrown2]. cbv beta. intros; lia.
    + eapply grown_weaken; [|exact Hgrown3]. cbv beta. intros; lia.
  - exists m. split; [reflexivity | apply grown_refl].
Qed.

(** X5.  [quick_sort] accesses only the indices from 0 to [sz]: it
    leaves the array by one cell at most, the cell just after its end,
    and it changes no cell outside the array.  An array with fewer than
    two elements is not accessed at all. *)
Theorem quick_sort_stays_near_array (fuel : nat) (a : array) :
  (Z.to_nat (sz a) + 2 <= fuel)%nat ->
  exists a' reads,
    quick_sort fuel a = Some (a', reads)
    /\ Forall (fun i => 0 <= i <= sz a) reads
    /\ (forall k, k < 0 \/ sz a <= k -> vals a' k = vals a k)
    /\ (sz a < 2 -> reads = []).
Proof.
  intros Hfuel.
  destruct (quick_sort_spec fuel a Hfuel)
    as (a' & reads & Hrun & _ & _ & _ & Hframe).
  exists a', reads. split; [exact Hrun|].
  unfold quick_sort in Hrun.
  destruct (quick_sort_1_accesses fuel 0 (sz a - 1)
              {| cell := vals a; accessed := [] |})
    as (m' & Hrun' & extra & Hacc & Hall); [lia|].
  rewrite Hrun' in Hrun. injection Hrun as _ <-.
  cbn [accessed] in Hacc. rewrite app_nil_r in Hacc. subst extra.
  split; [|split; [exact Hframe|]].
  - eapply Forall_impl; [|exact Hall]. cbv beta. intros; lia.
  - intros Hsmall. destruct fuel as [|fuel]; [lia|].
    cbn [quick_sort_1] in Hrun'.
    destruct (Z.ltb_spec 0 (sz a - 1)); [lia|].
    now injection Hrun' as <-.
Qed.

Lemma quick_sort_stays_near_array_witness :
  exists a' reads,
    quick_sort 5 (of_list (fun _ => 0) [3; 1; 2]) = Some (a', reads)
    /\ Forall (fun i => 0 <= i <= 3) reads.
Proof.
  destruct (quick_sort_stays_near_array 5 (of_list (fun _ => 0) [3; 1; 2]))
    as (a' & reads & Hrun & Hreads & _); [simpl; lia|].
  exists a', reads. split; [exact Hrun | exact Hreads].
Defined.

(** ** Sums of consecutive elements *)

Lemma sum_app (l1 l2 : list Z) :
  fold_right Z.add 0 (l1 ++ l2)
  = fold_right Z.add 0 l1 + fold_right Z.add 0 l2.
Proof. induction l1 as [|x l1 IH]; cbn [fold_right app]; lia. Qed.

Lemma direct_sum_empty (a : array) (lo hi : Z) :
  hi < lo -> direct_sum a lo hi = 0.
Proof.
  intros H. unfold direct_sum.
  now replace (Z.to_nat (hi - lo + 1)) with 0%nat by lia.
Qed.

Lemma direct_sum_last (a : array) (lo hi : Z) :
  lo <= hi -> direct_sum a lo hi = direct_sum a lo (hi - 1) + vals a hi.
Proof.
  intros H. unfold direct_sum.
  replace (Z.to_nat (hi - lo + 1)) with (Z.to_nat (hi - 1 - lo + 1) + 1)%nat
    by lia.
  rewrite segment_app, sum_app, segment_one. cbn [fold_right].
  replace (lo + Z.of_nat (Z.to_nat (hi - 1 - lo + 1))) with hi by lia.
  lia.
Qed.

(** ** Range sums over less than a block *)

(** X6.  When the range holds fewer elements than a block
    ([to - from < root_sz]), [range_sum_query] returns the sum of the
    elements from [from] to [to]: the loop over whole blocks does not
    run.  This covers the ranges with [to <= from], the only ones that
    [create_environments] produces.  The bounds are such that the index,
    an [int], and its successor stay below 2^31. *)
Theorem range_sum_query_short_range (fuel : nat) (rs : range_sum) :
  - 2 ^ 31 <= from rs < 2 ^ 31 - 1 ->
  to rs < 2 ^ 31 - 2 ->
  1 <= root_sz rs ->
  to rs - from rs < root_sz rs ->
  (Z.to_nat (to rs - from rs) + 2 <= fuel)%nat ->
  range_sum_query fuel rs
  = Some (direct_sum (rs_array rs) (from rs) (to rs)).
Proof.
  intros Hint Hto Hroot Hshort Hfuel.
  destruct fuel as [|fuel]; [lia|].
  assert (Hi : to_int (from rs) = from rs).
  { unfold to_int. rewrite Z.mod_small by lia. lia. }
  unfold range_sum_query. rewrite Hi.
  set (a := rs_array rs).
  set (bound := Z.max (from rs) (to rs + 1)).
  pose (I := fun st : Z * Z =>
    from rs <= snd st <= bound
    /\ fst st = direct_sum a (from rs) (snd st - 1)).
  pose (v := fun st : Z * Z => Z.to_nat (to rs + 1 - snd st)).
  (* the elements before the end of the first block *)
  match goal with |- context [while ?f ?c ?b (0, from rs)] =>
    destruct (while_rule I I v c b) with (fuel := f) (s := (0, from rs))
      as ([sum1 i1] & -> & Hi1 & Hsum1)
  end.
  { intros [sum i] [Hrange Hsum]. cbn [fst snd] in *. split.
    - intros Hcond. apply andb_prop in Hcond as [_ Hle].
      apply Z.leb_le in Hle.
      eexists. split; [reflexivity|]. unfold I, v. cbn [fst snd].
      repeat split; try lia.
      replace (i + 1 - 1) with i by lia.
      rewrite (direct_sum_last a (from rs) i) by lia. fold a. lia.
    - intros _. split; assumption. }
  { unfold I. cbn [fst snd]. split; [lia|].
    now rewrite direct_sum_empty by lia. }
  { unfold v. cbn [snd]. lia. }
  cbn [fst snd] in Hi1, Hsum1.
  (* no whole block *)
  erewrite while_false
    by (cbv beta iota;
        destruct (Z.leb_spec (i1 + root_sz rs) (to rs));
        [lia | reflexivity]).
  (* the remaining elements *)
  pose (Q := fun st : Z * Z => I st /\ to rs < snd st).
  match goal with |- context [while ?f ?c ?b (sum1, i1)] =>
    destruct (while_rule I Q v c b) with (fuel := f) (s := (sum1, i1))
      as ([sum3 i3] & -> & [Hi3 Hsum3] & Hend)
  end.
  { intros [sum i] [Hrange Hsum]. cbn [fst snd] in *. split.
    - intros Hle. apply Z.leb_le in Hle.
      eexists. split; [reflexivity|]. unfold I, v. cbn [fst snd].
      repeat split; try lia.
      replace (i + 1 - 1) with i by lia.
      rewrite (direct_sum_last a (from rs) i) by lia. fold a. lia.
    - intros Hgt. apply Z.leb_gt in Hgt. unfold Q, I. cbn [fst snd].
      repeat split; try assumption; lia. }
  { split; assumption. }
  { unfold v. cbn [snd]. lia. }
  cbn [fst snd] in Hi3, Hsum3, Hend. cbv iota. f_equal. rewrite Hsum3.
  destruct (Z_le_gt_dec (from rs) (to rs + 1)).
  - replace (i3 - 1) with (to rs) by lia. reflexivity.
  - rewrite !direct_sum_empty by lia. reflexivity.
Qed.

Lemma range_sum_query_short_range_witness :
  let rs :=
    {| slice_sum := fun _ => 0; root_sz := 3; from := 4; to := 6;
       rs_array := of_list (fun _ => 0) [1; 2; 3; 4; 5; 6; 7; 8; 9] |} in
  range_sum_query 5 rs = Some (direct_sum (rs_array rs) 4 6).
Proof.
  apply (range_sum_query_short_range 5
           {| slice_sum := fun _ => 0; root_sz := 3; from := 4; to := 6;
              rs_array := of_list (fun _ => 0) [1; 2; 3; 4; 5; 6; 7; 8; 9] |});
    cbn [from to root_sz]; lia.
Defined.

(** ** The block sums *)

(** The block of an index. *)
Lemma block_of_index (i root : Z) :
  0 <= i -> 0 < root ->
  0 <= i ÷ root /\ (i ÷ root) * root <= i < (i ÷ root + 1) * root.
Proof.
  intros Hi Hroot. rewrite Z.quot_div_nonneg by lia.
  pose proof (Z.div_pos i root ltac:(lia) Hroot).
  pose proof (Z.mul_div_le i root Hroot).
  pose proof (Z.mul_succ_div_gt i root Hroot).
  lia.
Qed.

(** X7.  For an array of 1 to 2^31 - 1 elements, [setup_slice_sums] sets
    [root_sz] to the integer square root of the size, which is at least
    1, and [slice_sum[b]] to the sum of the elements of block [b], the
    indices from [b * root_sz] to the end of the block or of the array,
    for each of the [sz / root_sz + 1] blocks; it writes no other cell of
    [slice_sum] and keeps the other fields. *)
Theorem setup_slice_sums_blocks (junk : Z -> Z) (rs : range_sum) :
  let a := rs_array rs in
  let rs' := setup_slice_sums junk rs in
  0 < sz a < 2 ^ 31 ->
  1 <= root_sz rs'
  /\ root_sz rs' * root_sz rs' <= sz a < (root_sz rs' + 1) * (root_sz rs' + 1)
  /\ (forall b, 0 <= b <= sz a ÷ root_sz rs' ->
      slice_sum rs' b
      = direct_sum a (b * root_sz rs')
          (Z.min ((b + 1) * root_sz rs') (sz a) - 1))
  /\ (forall b, b < 0 \/ sz a ÷ root_sz rs' < b -> slice_sum rs' b = junk b)
  /\ rs_array rs' = a /\ from rs' = from rs /\ to rs' = to rs.
Proof.
  intros a rs' Hsz. subst rs'. unfold setup_slice_sums.
  cbn [root_sz slice_sum rs_array from to]. fold a.
  set (root := Z.sqrt (sz a)).
  assert (Hroot : 1 <= root)
    by (pose proof (proj2 (Z.sqrt_pos (sz a)) ltac:(lia)); lia).
  pose proof (Z.sqrt_spec (sz a) ltac:(lia)) as Hspec.
  cbv zeta in Hspec. fold root in Hspec.
  assert (Hquot : sz a ÷ root = sz a / root)
    by (apply Z.quot_div_nonneg; lia).
  assert (Hblocks : 0 <= sz a / root <= sz a).
  { split; [apply Z.div_pos; lia|].
    apply Z.div_le_upper_bound; [lia|]. nia. }
  assert (Hint : to_int (sz a ÷ root) = sz a / root).
  { unfold to_int. rewrite Hquot, Z.mod_small by lia. lia. }
  rewrite Hint. rewrite Hquot.
  set (num := sz a / root + 1).
  (* the cells set to 0 *)
  pose (P0 := fun (i : Z) (m : Z -> Z) =>
    forall b, (0 <= b < i -> m b = 0) /\ (b < 0 \/ i <= b -> m b = junk b)).
  assert (H0 : P0 (0 + Z.of_nat (Z.to_nat num))
                  (for_loop (Z.to_nat num) 0 (fun i m => upd m i 0) junk)).
  { apply (for_loop_rule P0).
    - intros i m Hi Hm b. destruct (Hm b) as [Hin Hout].
      split; intros Hb; upd_cases.
    - intros b. split; [lia | reflexivity]. }
  replace (0 + Z.of_nat (Z.to_nat num)) with num in H0 by lia.
  set (zeroed := for_loop (Z.to_nat num) 0 (fun i m => upd m i 0) junk) in *.
  (* the sums *)
  pose (P := fun (i : Z) (m : Z -> Z) =>
    forall b,
      (0 <= b < num ->
       m b = direct_sum a (b * root) (Z.min ((b + 1) * root) i - 1))
      /\ (b < 0 \/ num <= b -> m b = junk b)).
  match goal with |- context [for_loop ?c 0 ?body zeroed] =>
    assert (H : P (0 + Z.of_nat c) (for_loop c 0 body zeroed))
  end.
  { apply (for_loop_rule P).
    - intros i m Hi Hm b.
      destruct (block_of_index i root ltac:(lia) ltac:(lia)) as [Hb0 Hblock].
      assert (Hb0' : i ÷ root < num).
      { rewrite Z.quot_div_nonneg by lia. unfold num.
        pose proof (Z.div_le_mono i (sz a) root ltac:(lia) ltac:(lia)). lia. }
      set (b0 := i ÷ root) in *.
      destruct (Hm b) as [Hin Hout]. destruct (Hm b0) as [Hin0 _].
      split; intros Hb; unfold upd; destruct (Z.eqb_spec b b0) as [->|Hne];
        try lia; try (now apply Hout).
      + rewrite Hin0 by lia.
        replace (Z.min ((b0 + 1) * root) i) with i by lia.
        replace (Z.min ((b0 + 1) * root) (i + 1)) with (i + 1) by lia.
        replace (i + 1 - 1) with i by lia.
        rewrite (direct_sum_last a (b0 * root) i) by lia. reflexivity.
      + rewrite Hin by lia.
        destruct (Z_lt_ge_dec b b0) as [Hlt|Hge].
        * assert ((b + 1) * root <= b0 * root) by nia.
          rewrite !Z.min_l by lia. reflexivity.
        * assert ((b0 + 1) * root <= b * root) by nia.
          rewrite !direct_sum_empty by lia. reflexivity.
    - intros b. destruct (H0 b) as [Hin Hout]. split; intros Hb.
      + rewrite Hin by lia. rewrite direct_sum_empty; [reflexivity|].
        assert (0 <= b * root) by nia. lia.
      + now apply Hout. }
  replace (0 + Z.of_nat (Z.to_nat (sz a))) with (sz a) in H by lia.
  split; [exact Hroot|]. split; [lia|].
  split; [intros b Hb; apply (H b); unfold num; lia|].
  split; [intros b Hb; apply (H b); unfold num; lia|].
  repeat split.
Qed.

Lemma setup_slice_sums_blocks_witness :
  let rs :=
    {| slice_sum := fun _ => 9; root_sz := 0; from := 0; to := 0;
       rs_array := of_list (fun _ => 0) [1; 2; 3; 4; 5] |} in
  root_sz (setup_slice_sums (fun _ => 9) rs) = 2
  /\ 1 <= root_sz (setup_slice_sums (fun _ => 9) rs).
Proof.
  split; [reflexivity|].
  apply (setup_slice_sums_blocks (fun _ => 9)
           {| slice_sum := fun _ => 9; root_sz := 0; from := 0; to := 0;
              rs_array := of_list (fun _ => 0) [1; 2; 3; 4; 5] |}).
  cbn [rs_array of_list sz List.length]. lia.
Defined.

(** ** Random arrays *)

(** X8.  [create_int_array] fills the cells 0 to [sz - 1] with the next
    [sz] values of [rand()], in order, leaves the other cells of the block
    as they were, and has called [rand()] once for each cell. *)
Theorem create_int_array_fills rand (block : Z -> Z) (k : nat) (size : Z) :
  snd (create_int_array rand block k size) = (k + Z.to_nat size)%nat
  /\ (forall i, 0 <= i < size ->
      fst (create_int_array rand block k size) i
      = rand (k + Z.to_nat i)%nat)
  /\ (forall i, i < 0 \/ size <= i ->
      fst (create_int_array rand block k size) i = block i).
Proof.
  unfold create_int_array.
  pose (P := fun (i : Z) (st : (Z -> Z) * nat) =>
    0 <= i /\ snd st = (k + Z.to_nat i)%nat
    /\ forall j,
         (0 <= j < i -> fst st j = rand (k + Z.to_nat j)%nat)
         /\ (j < 0 \/ i <= j -> fst st j = block j)).
  match goal with |- context [for_loop ?c 0 ?b ?s0] =>
    assert (H : P (0 + Z.of_nat c) (for_loop c 0 b s0))
  end.
  { apply (for_loop_rule P).
    - intros i [m c] Hi (Hnn & Hc & Hm). unfold P. cbn [fst snd] in *.
      split; [lia|]. split; [lia|].
      intros j. destruct (Hm j) as [Hin Hout]. subst c.
      split; intros Hj; upd_cases.
    - unfold P. cbn [fst snd]. split; [lia|]. split; [lia|].
      intros j. split; [lia | reflexivity]. }
  destruct H as (_ & Hk & Hm). split; [rewrite Hk; lia|].
  split; intros i Hi; apply (Hm i); lia.
Qed.

(** ** The maximum over all runs *)

(** The inner loop of [find_max_seq_sum] for the start [i]: the running
    maximum grows, bounds the sums of the runs that start at [i], and is
    the old maximum or one of these sums. *)
Lemma find_max_seq_sum_runs_from (a : array) (i max_sum : Z) (cnt : nat) :
  let r := snd (for_loop cnt i
                  (fun j '(curr_sum, max_sum) =>
                     let curr_sum := curr_sum + vals a j in
                     (curr_sum,
                      if max_sum <? curr_sum then curr_sum else max_sum))
                  (0, max_sum)) in
  max_sum <= r
  /\ (forall j, i <= j < i + Z.of_nat cnt -> direct_sum a i j <= r)
  /\ (r = max_sum
      \/ exists j, i <= j < i + Z.of_nat cnt /\ r = direct_sum a i j).
Proof.
  intros r. subst r.
  pose (Q := fun (j : Z) (st : Z * Z) =>
    i <= j
    /\ fst st = direct_sum a i (j - 1)
    /\ max_sum <= snd st
    /\ (forall k, i <= k < j -> direct_sum a i k <= snd st)
    /\ (snd st = max_sum
        \/ exists k, i <= k < j /\ snd st = direct_sum a i k)).
  match goal with |- context [for_loop cnt i ?b ?s] =>
    assert (H : Q (i + Z.of_nat cnt) (for_loop cnt i b s))
  end.
  { apply (for_loop_rule Q).
    - intros j [curr_sum m] Hj HQ. unfold Q in *. cbn [fst snd] in *.
      destruct HQ as (Hij & Hcurr & Hmono & Hbound & Hattained).
      assert (Hnew : curr_sum + vals a j = direct_sum a i j)
        by (rewrite (direct_sum_last a i j) by lia; lia).
      replace (j + 1 - 1) with j by lia.
      destruct (Z.ltb_spec m (curr_sum + vals a j)) as [Hlt|Hge];
        cbn [fst snd].
      + split; [lia|]. split; [exact Hnew|]. split; [lia|].
        split.
        * intros k Hk. destruct (Z.eq_dec k j) as [->|]; [lia|].
          specialize (Hbound k ltac:(lia)). lia.
        * right. exists j. split; [lia | exact Hnew].
      + split; [lia|]. split; [exact Hnew|]. split; [lia|].
        split.
        * intros k Hk. destruct (Z.eq_dec k j) as [->|]; [lia|].
          apply Hbound. lia.
        * destruct Hattained as [?|(k & Hk & ?)]; [now left|].
          right. exists k. split; [lia | assumption].
    - unfold Q. cbn [fst snd]. split; [lia|].
      split; [now rewrite direct_sum_empty by lia|].
      split; [lia|]. split; [intros; lia | now left]. }
  destruct H as (_ & _ & H1 & H2 & H3). auto.
Qed.

(** X9.  For an array of fewer than 2^31 elements whose runs all have a
    sum below 2^53 in absolute value, so that the counters do not
    overflow and the doubles of the routine hold every sum exactly,
    [find_max_seq_sum] returns the largest sum of a run of consecutive
    elements, or 0 if no run has a positive sum: the result is at least
    the sum of every run from [i] to [j], and it is 0 or the sum of one
    of the runs. *)
Theorem find_max_seq_sum_is_maximum (a : array) :
  sz a < 2 ^ 31 ->
  (forall i j, 0 <= i <= j -> j < sz a ->
     - 2 ^ 53 < direct_sum a i j < 2 ^ 53) ->
  (forall i j, 0 <= i <= j -> j < sz a ->
     direct_sum a i j <= find_max_seq_sum a)
  /\ (find_max_seq_sum a = 0
      \/ exists i j, 0 <= i <= j /\ j < sz a
                     /\ find_max_seq_sum a = direct_sum a i j).
Proof.
  intros Hint Hexact. unfold find_max_seq_sum.
  pose (P := fun (i : Z) (max_sum : Z) =>
    (forall i' j, 0 <= i' < i -> i' <= j < sz a ->
       direct_sum a i' j <= max_sum)
    /\ (max_sum = 0
        \/ exists i' j, 0 <= i' <= j /\ j < sz a
                        /\ max_sum = direct_sum a i' j)).
  match goal with |- context [for_loop ?c 0 ?b ?s] =>
    assert (H : P (0 + Z.of_nat c) (for_loop c 0 b s))
  end.
  { apply (for_loop_rule P).
    - intros i max_sum Hi [Hbound Hattained]. unfold P.
      destruct (find_max_seq_sum_runs_from a i max_sum (Z.to_nat (sz a - i)))
        as (Hmono & Hfrom & Hor).
      split.
      + intros i' j Hi' Hj. destruct (Z.eq_dec i' i) as [->|Hne].
        * apply Hfrom. lia.
        * eapply Z.le_trans; [apply Hbound; lia | exact Hmono].
      + destruct Hor as [Heq|(j & Hj & Heq)].
        * destruct Hattained as [Hzero|(i' & j & Hi' & Hj & Hsum)].
          -- left. exact (eq_trans Heq Hzero).
          -- right. exists i', j. split; [lia|]. split; [lia|].
             exact (eq_trans Heq Hsum).
        * right. exists i, j. split; [lia|]. split; [lia | exact Heq].
    - unfold P. split; [intros; lia | now left]. }
  destruct H as [Hbound Hattained]. split.
  - intros i j Hij Hj. apply Hbound; lia.
  - exact Hattained.
Qed.

Lemma find_max_seq_sum_is_maximum_witness :
  direct_sum (of_list (fun _ => 0) [-3; 5; -1]) 0 2
  <= find_max_seq_sum (of_list (fun _ => 0) [-3; 5; -1]).
Proof.
  destruct (find_max_seq_sum_is_maximum (of_list (fun _ => 0) [-3; 5; -1]))
    as [Hbound _].
  - simpl. lia.
  - intros i j Hij Hj. simpl in Hj.
    assert (Hi : i = 0 \/ i = 1 \/ i = 2) by lia.
    assert (Hj' : j = 0 \/ j = 1 \/ j = 2) by lia.
    destruct Hi as [Hi|[Hi|Hi]]; destruct Hj' as [Hj'|[Hj'|Hj']]; subst i j;
      vm_compute; split; reflexivity.
  - apply Hbound; simpl; lia.
Defined.

(** ** What the routines of a run produce *)









(** X11.  Every completed setup leaves the bounds of the range-sum query
    with [to <= from], whatever the size and the values of [rand()]: the
    loop of [create_environments] draws again while [from < to]. *)
Theorem setup_leaves_to_at_most_from rand junk fuel size environments :
  create_environments rand junk fuel size = Some environments ->
  exists from to,
    query_bounds environments = Some (from, to) /\ to <= from.
Proof. apply create_environments_bounds. Qed.

Lemma setup_leaves_to_at_most_from_witness :
  exists environments from to,
    create_environments (fun k => Z.of_nat (k * 3 mod 7)) (fun _ _ => 0) 9 4
    = Some environments
    /\ query_bounds environments = Some (from, to) /\ to <= from.
Proof.
  destruct (create_environments (fun k => Z.of_nat (k * 3 mod 7))
              (fun _ _ => 0) 9 4) as [environments|] eqn:Hsetup;
    [|vm_compute in Hsetup; discriminate].
  destruct (setup_leaves_to_at_most_from _ _ _ _ _ Hsetup)
    as (from & to & Hbounds & Hle).
  exists environments, from, to. auto.
Defined.

(** ** The labels and the end of the report *)

(** X12.  The nine classes have nine different labels, and every label
    fills exactly the 12 columns that the report gives it, so that the
    item counts of all lines start in the same column. *)
Theorem oclass_labels_distinct_and_aligned :
  (forall c1 c2, oclass_1_str c1 = oclass_1_str c2 -> c1 = c2)
  /\ (forall c, String.length (pad12 (oclass_1_str c)) = 12%nat).
Proof.
  split.
  - intros [] []; cbn [oclass_1_str]; intros H;
      solve [reflexivity | discriminate H].
  - intros []; reflexivity.
Qed.

(** X13.  [show_algo_results] stops at the first environment without a
    routine: whatever follows the end marker in the array is neither
    run nor reported. *)
Theorem show_algo_results_stops_at_marker clock fuel
        (before after : list environment) (marker : environment) (w : world) :
  algo marker = None ->
  show_algo_results clock fuel (before ++ marker :: after) w
  = show_algo_results clock fuel (before ++ [marker]) w.
Proof.
  intros Hmarker. revert w.
  induction before as [|e before IH]; intros w; cbn [app show_algo_results].
  - now rewrite Hmarker.
  - destruct (algo e); [|reflexivity].
    destruct (show_time_taken clock fuel e w); [apply IH | reflexivity].
Qed.

Lemma show_algo_results_stops_at_marker_witness :
  let skipped := {| n := 7; algo := Some Fdo_nothing; data := DNull;
                    oclass := O_n_permut |} in
  let marker := {| n := 0; algo := None; data := DNull; oclass := O1 |} in
  show_algo_results (fun _ => 0) 1 ([skipped] ++ marker :: [skipped]) world0
  = show_algo_results (fun _ => 0) 1 ([skipped] ++ [marker]) world0.
Proof.
  apply (show_algo_results_stops_at_marker (fun _ => 0) 1
           [{| n := 7; algo := Some Fdo_nothing; data := DNull;
               oclass := O_n_permut |}]
           [{| n := 7; algo := Some Fdo_nothing; data := DNull;
               oclass := O_n_permut |}]
           {| n := 0; algo := None; data := DNull; oclass := O1 |}).
  reflexivity.
Defined.

(** ** The moves of the Tower of Hanoi *)

Lemma tower_succ (num : Z) :
  0 <= num -> tower (Z.succ num) = tower num ++ [Z.succ num].
Proof.
  intros Hnum. unfold tower. rewrite Z2Nat.inj_succ by assumption.
  rewrite seq_S, map_app. cbn [map Nat.add]. do 2 f_equal. lia.
Qed.

Lemma play_app (l1 l2 : list notification) :
  forall st st1,
  play l1 st = Some st1 -> play (l1 ++ l2) st = play l2 st1.
Proof.
  induction l1 as [|mv l1 IH]; intros st st1; cbn [play app].
  - now intros [= ->].
  - destruct (move_disk mv st) as [st'|]; [apply IH | discriminate].
Qed.

(** The notifications of [solve_hanoi_1 num from to spare], carried out on
    pegs where the disks 1 to [num] lie on top of [from] and every other
    disk is larger, move these disks on top of [to] and put every other
    disk back where it was. *)
Lemma solve_hanoi_1_moves_tower (num : Z) :
  0 <= num ->
  forall from_peg to_peg spare_peg (st : pegs) (rest : list Z),
  from_peg <> to_peg -> from_peg <> spare_peg -> to_peg <> spare_peg ->
  st from_peg = tower num ++ rest ->
  Forall (fun d => num < d) rest ->
  Forall (fun d => num < d) (st to_peg) ->
  Forall (fun d => num < d) (st spare_peg) ->
  exists st',
    play (solve_hanoi_1 num from_peg to_peg spare_peg) st = Some st'
    /\ st' from_peg = rest
    /\ st' to_peg = tower num ++ st to_peg
    /\ (forall p, p <> from_peg -> p <> to_peg -> st' p = st p).
Proof.
  intros Hnum. pattern num. apply natlike_ind; [| |exact Hnum]; clear.
  - intros f t s st rest Hft Hfs Hts Hf _ _ _.
    rewrite solve_hanoi_1_base by lia. exists st. cbn [play].
    repeat split; auto.
  - intros num Hnum IH f t s st rest Hft Hfs Hts Hf Hrest Ht Hs.
    rewrite solve_hanoi_1_step by lia.
    replace (Z.succ num - 1) with num by lia.
    rewrite tower_succ, <- app_assoc in Hf by assumption.
    cbn [app] in Hf.
    assert (Hweak : forall l, Forall (fun d => Z.succ num < d) l ->
                              Forall (fun d => num < d) l).
    { intros l. apply Forall_impl. intros; lia. }
    destruct (Z.ltb_spec 1 (Z.succ num)) as [Hbig|Hone].
    + (* the [num] smaller disks go to the spare peg *)
      destruct (IH f s t st (Z.succ num :: rest))
        as (st1 & Hplay1 & Hf1 & Hs1 & Hother1); auto.
      { constructor; [lia | auto]. }
      rewrite (play_app _ _ _ _ Hplay1).
      (* the largest disk goes to the target peg *)
      cbn [app play move_disk]. rewrite Hf1.
      rewrite (Hother1 t) by auto.
      assert (Hlegal : match st t with [] => true | e :: _ => Z.succ num <? e
                       end = true).
      { destruct (st t) as [|e l]; [reflexivity|].
        inversion Ht; subst. apply Z.ltb_lt. assumption. }
      rewrite Hlegal.
      set (st2 := fun p : Z =>
                    if p =? t then Z.succ num :: st t
                    else if p =? f then rest else st1 p).
      (* the smaller disks come back on top of it *)
      destruct (IH s t f st2 (st s))
        as (st3 & Hplay3 & Hs3 & Ht3 & Hother3); auto.
      { unfold st2. destruct (Z.eqb_spec s t); [congruence|].
        destruct (Z.eqb_spec s f); [congruence | exact Hs1]. }
      { unfold st2. rewrite Z.eqb_refl. constructor; [lia | auto]. }
      { unfold st2. destruct (Z.eqb_spec f t); [congruence|].
        rewrite Z.eqb_refl. auto. }
      exists st3. split; [exact Hplay3|].
      split; [|split].
      * rewrite (Hother3 f) by auto. unfold st2.
        destruct (Z.eqb_spec f t); [congruence|]. now rewrite Z.eqb_refl.
      * rewrite Ht3. unfold st2. rewrite Z.eqb_refl.
        rewrite tower_succ, <- app_assoc by assumption. reflexivity.
      * intros p Hpf Hpt. destruct (Z.eq_dec p s) as [->|Hps].
        -- exact Hs3.
        -- rewrite (Hother3 p) by auto. unfold st2.
           destruct (Z.eqb_spec p t); [congruence|].
           destruct (Z.eqb_spec p f); [congruence|].
           apply Hother1; auto.
    + (* one disk *)
      assert (num = 0) as -> by lia.
      cbn [app play move_disk tower seq map Z.to_nat] in *. rewrite Hf.
      assert (Hlegal : match st t with [] => true | e :: _ => Z.succ 0 <? e
                       end = true).
      { destruct (st t) as [|e l]; [reflexivity|].
        inversion Ht; subst. apply Z.ltb_lt. assumption. }
      rewrite Hlegal. eexists. split; [reflexivity|]. cbv beta.
      split; [|split].
      * destruct (Z.eqb_spec f t); [congruence|]. now rewrite Z.eqb_refl.
      * rewrite Z.eqb_refl. reflexivity.
      * intros p Hpf Hpt.
        destruct (Z.eqb_spec p t); [congruence|].
        destruct (Z.eqb_spec p f); [congruence | reflexivity].
Qed.

(** X14.  The notifications of [solve_hanoi num], carried out with the
    pegs of the calls that emit them, solve the puzzle: starting with the
    disks 1 to [num] on peg 1, every move takes the top disk of a peg
    onto an empty peg or a larger disk, and in the end all the disks are
    on peg 2, in order. *)
Theorem solve_hanoi_solves_puzzle (num : Z) :
  0 <= num ->
  exists final,
    play (solve_hanoi num) (fun p => if p =? 1 then tower num else [])
    = Some final
    /\ final 1 = [] /\ final 2 = tower num /\ final 3 = [].
Proof.
  intros Hnum. unfold solve_hanoi.
  destruct (solve_hanoi_1_moves_tower num Hnum 1 2 3
              (fun p => if p =? 1 then tower num else []) [])
    as (final & Hplay & H1 & H2 & Hother); try lia.
  - cbn [Z.eqb Pos.eqb]. now rewrite app_nil_r.
  - constructor.
  - constructor.
  - constructor.
  - exists final. split; [exact Hplay|]. split; [exact H1|].
    split; [rewrite H2; cbn [Z.eqb Pos.eqb]; apply app_nil_r|].
    rewrite (Hother 3) by lia. reflexivity.
Qed.

Lemma solve_hanoi_solves_puzzle_witness :
  exists final,
    play (solve_hanoi 4) (fun p => if p =? 1 then tower 4 else [])
    = Some final
    /\ final 1 = [] /\ final 2 = tower 4 /\ final 3 = [].
Proof. apply (solve_hanoi_solves_puzzle 4). lia. Defined.

(** ** Range sums with blocks of one element *)

(** With blocks of one element whose sums are the elements, the query
    adds the elements before [to] as blocks and the last one by itself. *)
Lemma range_sum_query_unit_blocks (fuel : nat) (rs : range_sum) :
  root_sz rs = 1 ->
  - 2 ^ 31 <= from rs -> from rs <= to rs -> to rs < 2 ^ 31 ->
  (forall b, from rs <= b < to rs ->
     slice_sum rs b = vals (rs_array rs) b) ->
  (Z.to_nat (to rs - from rs) + 2 <= fuel)%nat ->
  range_sum_query fuel rs
  = Some (direct_sum (rs_array rs) (from rs) (to rs)).
Proof.
  intros Hroot Hlo Hrange Hhi Hslices Hfuel.
  destruct fuel as [|[|fuel]]; try lia.
  assert (Hi : to_int (from rs) = from rs).
  { unfold to_int. rewrite Z.mod_small by lia. lia. }
  unfold range_sum_query. rewrite Hi, Hroot.
  set (a := rs_array rs) in *.
  (* every index ends a block *)
  erewrite while_false
    by (cbv beta iota; rewrite Z.rem_1_r; reflexivity).
  pose (I := fun st : Z * Z =>
    from rs <= snd st <= to rs
    /\ fst st = direct_sum a (from rs) (snd st - 1)).
  pose (Q := fun st : Z * Z => I st /\ snd st = to rs).
  pose (v := fun st : Z * Z => Z.to_nat (to rs - snd st)).
  match goal with |- context [while ?f ?c ?b (0, from rs)] =>
    destruct (while_rule I Q v c b) with (fuel := f) (s := (0, from rs))
      as ([sum2 i2] & -> & [Hi2 Hsum2] & Hend)
  end.
  { intros [sum i] [Hi' Hsum]. cbn [fst snd] in *. split.
    - intros Hcond. apply Z.leb_le in Hcond.
      eexists. split; [reflexivity|].
      assert (Hint : to_int (i + 1) = i + 1)
        by (unfold to_int; rewrite Z.mod_small by lia; lia).
      unfold I, v. cbn [fst snd]. rewrite Hint, Z.quot_1_r.
      repeat split; try lia.
      replace (i + 1 - 1) with i by lia.
      rewrite (direct_sum_last a (from rs) i) by lia.
      rewrite Hslices by lia. lia.
    - intros Hcond. apply Z.leb_gt in Hcond. unfold Q, I. cbn [fst snd].
      repeat split; try assumption; lia. }
  { unfold I. cbn [fst snd]. split; [lia|].
    now rewrite direct_sum_empty by lia. }
  { unfold v. cbn [snd]. lia. }
  cbn [fst snd] in Hi2, Hsum2, Hend. subst i2.
  erewrite while_once;
    [
    | cbv beta iota; rewrite Z.leb_refl; reflexivity
    | reflexivity
    | cbv beta iota;
      destruct (Z.leb_spec (to rs + 1) (to rs)); [lia | reflexivity]].
  cbv iota. f_equal. rewrite Hsum2.
  now rewrite (direct_sum_last a (from rs) (to rs)) by lia.
Qed.

(** X15.  For an array of one to three elements, whose blocks have one
    element each, the block sums of [setup_slice_sums] and
    [range_sum_query] together give the sum of the elements of every
    range [from <= to] inside the array. *)
Theorem range_sum_small_arrays (fuel : nat) (junk : Z -> Z)
        (a : array) (lo hi : Z) :
  1 <= sz a <= 3 ->
  0 <= lo <= hi -> hi < sz a ->
  (5 <= fuel)%nat ->
  let rs :=
    setup_slice_sums junk
      {| slice_sum := junk; root_sz := 0; from := lo; to := hi;
         rs_array := a |} in
  range_sum_query fuel rs = Some (direct_sum a lo hi).
Proof.
  intros Hsz Hlo Hhi Hfuel rs.
  destruct (setup_slice_sums_blocks junk
              {| slice_sum := junk; root_sz := 0; from := lo; to := hi;
                 rs_array := a |})
    as (Hroot & Hsquare & Hslices & _ & Harr & Hfrom & Hto);
    [cbn [rs_array]; lia|].
  fold rs in Hroot, Hsquare, Hslices, Harr, Hfrom, Hto.
  cbn [rs_array from to] in *.
  assert (Hone : root_sz rs = 1) by nia.
  rewrite <- Harr, <- Hfrom, <- Hto.
  apply range_sum_query_unit_blocks; rewrite ?Hfrom, ?Hto; try lia.
  intros b Hb. rewrite Hslices by (rewrite Hone, Z.quot_1_r; lia).
  rewrite Hone, Harr.
  replace (Z.min ((b + 1) * 1) (sz a) - 1) with b by lia.
  replace (b * 1) with b by lia.
  rewrite (direct_sum_last a b b) by lia.
  rewrite direct_sum_empty by lia. lia.
Qed.

Lemma range_sum_small_arrays_witness :
  range_sum_query 5
    (setup_slice_sums (fun _ => 9)
       {| slice_sum := fun _ => 9; root_sz := 0; from := 0; to := 2;
          rs_array := of_list (fun _ => 0) [4; 5; 6] |})
  = Some (direct_sum (of_list (fun _ => 0) [4; 5; 6]) 0 2).
Proof.
  apply (range_sum_small_arrays 5 (fun _ => 9)
           (of_list (fun _ => 0) [4; 5; 6]) 0 2);
    cbn [of_list sz List.length]; lia.
Defined.

(** ** The sorted sequence and the memory around the array *)

(** X16.  The sequence that [quick_sort] leaves in the array does not
    depend on the content of the memory around the array, although the
    sort may read the cell after the array. *)
Theorem quick_sort_ignores_surroundings (fuel : nat)
        (junk1 junk2 : Z -> Z) (l : list Z) :
  (List.length l + 2 <= fuel)%nat ->
  exists a1 reads1 a2 reads2,
    quick_sort fuel (of_list junk1 l) = Some (a1, reads1)
    /\ quick_sort fuel (of_list junk2 l) = Some (a2, reads2)
    /\ to_list a1 = to_list a2.
Proof.
  intros Hfuel.
  destruct (quick_sort_spec fuel (of_list junk1 l))
    as (a1 & reads1 & Hrun1 & _ & Hperm1 & Hsorted1 & _);
    [cbn [of_list sz]; lia|].
  destruct (quick_sort_spec fuel (of_list junk2 l))
    as (a2 & reads2 & Hrun2 & _ & Hperm2 & Hsorted2 & _);
    [cbn [of_list sz]; lia|].
  rewrite to_list_of_list in Hperm1, Hperm2.
  exists a1, reads1, a2, reads2. split; [exact Hrun1|].
  split; [exact Hrun2|].
  apply sorted_permutation_unique; try assumption.
  etransitivity; [exact Hperm1 | symmetry; exact Hperm2].
Qed.

Lemma quick_sort_ignores_surroundings_witness :
  exists a1 reads1 a2 reads2,
    quick_sort 4 (of_list (fun _ => 0) [2; 1]) = Some (a1, reads1)
    /\ quick_sort 4 (of_list (fun _ => 100) [2; 1]) = Some (a2, reads2)
    /\ to_list a1 = to_list a2.
Proof.
  apply (quick_sort_ignores_surroundings 4 (fun _ => 0) (fun _ => 100)
           [2; 1]).
  simpl. lia.
Defined.
